(** * A shallow embedding of the recursive-descent parser of [parser.cpp]

    The parser walks a vector of tokens with one cursor, [offset], and
    builds the syntax tree of a small C-like language.  Every function of
    [parser.cpp] is a function of the same name below; the [Parser] object
    is the token vector (fixed for a run) and the cursor (threaded through
    the monad [M]). *)

From Stdlib Require Import List String Ascii ZArith Bool Lia PeanoNat.
Import ListNotations.

Set Warnings "-register-all".

Local Open Scope string_scope.
Local Open Scope list_scope.

(** ** Tokens *)

(** Modelled from the spec: the enumeration of token types is declared in
    [parser.hpp], which is not among the sources.  The constructors below
    are the enumerators that [parser.cpp] names ([Token::END],
    [Token::TYPE], ...); [OTHER] stands for the enumerators that the parser
    never names, such as the type tags of the arithmetic operators, and
    carries the tag's name. *)
Inductive TokenType : Type :=
| END | TYPE | IDENTIFIER
| LPAREN | RPAREN | LBRACE | RBRACE | LBRACKET | RBRACKET
| SEMICOLON | COMMA | ASSIGNMENT | MULTIPLY | INCREMENT | DECREMENT
| IF | ELIF | ELSE | WHILE | FOR | REPEAT | RETURN | BREAK | CONTINUE
| INTEGER_LITERAL | FLOAT_LITERAL | CHAR_LITERAL | STRING_LITERAL
| BOOL_LITERAL
| OTHER (tag : string).

Definition TokenType_eq_dec (a b : TokenType) : {a = b} + {a <> b}.
Proof. decide equality. apply string_dec. Defined.

Definition TokenType_eqb (a b : TokenType) : bool :=
  if TokenType_eq_dec a b then true else false.

(** Modelled from the spec: the [Token] structure is declared in a header
    that is not among the sources; the parser reads its members [type] (the
    type tag) and [value] (the literal text). *)
Record Token : Type := mkToken { type : TokenType; value : string }.

(** ** Syntax trees *)

(** Modelled from the spec: the node classes are declared in headers that
    are not among the sources; each constructor takes the arguments that
    [parser.cpp] passes to [std::make_shared] for the class of that name.
    A null [shared_ptr] (an absent initializer, body or else branch) is
    [None]. *)
Inductive Expression : Type :=
| BinaryOperation (op : string) (lhs rhs : Expression)
| PrefixExpression (op : string) (operand : Expression)
| PostfixIncrementExpression (base : Expression)
| PostfixDecrementExpression (base : Expression)
| FunctionCallExpression (base : Expression) (args : list Expression)
| SubscriptExpression (base index : Expression)
| IntLiteral (text : string)
| FloatLiteral (text : string)
| CharLiteral (text : string)
| StringLiteral (text : string)
| BoolLiteral (text : string)
| IdentifierExpression (name : string)
| ParenthesizedExpression (inner : Expression).

Inductive Declarator : Type :=
| NoPtrDeclarator (name : string)
| PtrDeclarator (name : string).

Record InitDeclarator : Type := mkInitDeclarator
  { declarator : Declarator; initializer : option Expression }.

Record ParameterDeclaration : Type := mkParameterDeclaration
  { param_type : string; param_declarator : InitDeclarator }.

Record VarDeclaration : Type := mkVarDeclaration
  { var_type : string; declarator_list : list InitDeclarator }.

Inductive Statement : Type :=
| CompoundStatement (statements : list Statement)
| ConditionalStatement (if_branch : Expression * Statement)
    (elif_branches : list (Expression * Statement))
    (else_branch : option Statement)
| WhileStatement (condition : Expression) (body : Statement)
| RepeatStatement (body : Statement)
| ForStatement
| BreakStatement
| ContinueStatement
| ReturnStatement (expression : Expression)
| DeclarationStatement (declaration : VarDeclaration)
| ExpressionStatement (expression : Expression).

Inductive Declaration : Type :=
| FuncDeclaration (type_name : string) (d : Declarator)
    (params : list ParameterDeclaration) (body : option Statement)
| VarDecl (v : VarDeclaration).

Inductive TranslationUnit : Type :=
| mkTranslationUnit (declarations : list Declaration).

(** ** The operator tables *)

(** [Parser::operator_precedences], an [unordered_map] from operator text
    to precedence, as an association list with distinct keys. *)
Definition operator_precedences : list (string * Z) :=
  [ ("=", 0); ("+=", 0); ("-=", 0); ("*=", 0); ("/=", 0); ("%=", 0);
    ("**=", 0);
    ("||", 1);
    ("&&", 2);
    ("==", 3); ("!=", 3);
    ("<", 4); ("<=", 4); (">", 4); (">=", 4);
    ("+", 5); ("-", 5);
    ("*", 6); ("/", 6); ("%", 6);
    ("^", 7) ]%Z.

(** [Parser::unary_operators], an [unordered_set] of operator texts. *)
Definition unary_operators : list string :=
  [ "+"; "-"; "&"; "*"; "!"; "++"; "--" ].

(** [m.contains(k) ? m.at(k) : nothing], in one lookup. *)
Fixpoint lookup (m : list (string * Z)) (k : string) : option Z :=
  match m with
  | [] => None
  | (k', v) :: m' => if String.eqb k' k then Some v else lookup m' k
  end.

Definition contains (s : list string) (k : string) : bool :=
  existsb (String.eqb k) s.

(** ** The parser monad *)

(** The outcome of running a parser function from a cursor position:
    - [Ok a off]: it returned [a], leaving the cursor at [off];
    - [Throw what off]: it threw [std::runtime_error(what)] while the cursor
      was at [off];
    - [OutOfRange]: it indexed [tokens] at or past [tokens.size()] (undefined
      behaviour in the source);
    - [OutOfFuel]: the recursion bound of the model was reached. *)
Inductive Result (A : Type) : Type :=
| Ok (a : A) (off : nat)
| Throw (what : string) (off : nat)
| OutOfRange
| OutOfFuel.

Arguments Ok {A} a off.
Arguments Throw {A} what off.
Arguments OutOfRange {A}.
Arguments OutOfFuel {A}.

(** A parser function: from the cursor before to the outcome.  [offset] is a
    [std::size_t] in the source; it never exceeds the number of tokens by
    more than one step before an access fails, so [nat] stands for it. *)
Definition M (A : Type) : Type := nat -> Result A.

Definition ret {A} (a : A) : M A := fun off => Ok a off.

Definition bind {A B} (m : M A) (f : A -> M B) : M B :=
  fun off =>
    match m off with
    | Ok a off' => f a off'
    | Throw what off' => Throw what off'
    | OutOfRange => OutOfRange
    | OutOfFuel => OutOfFuel
    end.

Definition throw {A} (what : string) : M A := fun off => Throw what off.

Definition out_of_fuel {A} : M A := fun _ => OutOfFuel.

(** [offset] read, and [++offset]. *)
Definition get_offset : M nat := fun off => Ok off off.

Definition incr_offset : M unit := fun off => Ok tt (S off).

Declare Scope parser_scope.
Delimit Scope parser_scope with parser.

Notation "x <- m ;; k" := (bind m (fun x => k))
  (at level 100, m at next level, right associativity) : parser_scope.
Notation "m ;; k" := (bind m (fun _ => k))
  (at level 100, right associativity) : parser_scope.

Local Open Scope parser_scope.

(** The order in which the arguments of one call are evaluated, which C++
    leaves to the compiler.  It matters at line 59 only, the one call of
    which two arguments move the cursor. *)
Inductive EvaluationOrder : Type := LeftToRight | RightToLeft.

Section Parser.

(** The token vector of the [Parser] object. *)
Variable tokens : list Token.

(** The order the compiler has chosen. *)
Variable order : EvaluationOrder.

(** [tokens[i]]: out of range is not checked by [std::vector::operator[]]. *)
Definition token_at (i : nat) : M Token :=
  fun off =>
    match nth_error tokens i with
    | Some tk => Ok tk off
    | None => OutOfRange
    end.

(** [tokens[offset]]. *)
Definition current : M Token := i <- get_offset;; token_at i.

(** *** Cursor primitives (lines 302-328) *)

(** [check_token(expected...)]: the fold
    [((tokens[offset].type == expected) || ...)], which over an empty pack
    is [false] and reads nothing. *)
Fixpoint check_token (expected : list TokenType) : M bool :=
  match expected with
  | [] => ret false
  | e :: rest =>
      tk <- current;;
      if TokenType_eqb (type tk) e then ret true else check_token rest
  end.

Definition match_token (expected : list TokenType) : M bool :=
  match_found <- check_token expected;;
  if match_found : bool then (incr_offset;; ret true) else ret false.

Definition extract_token (expected : list TokenType) : M string :=
  found <- check_token expected;;
  if found : bool then
    (tk <- current;; incr_offset;; ret (value tk))
  else
    (tk <- current;; throw ("Unexpected token " ++ value tk)).

(** The fold [((tokens[i++].type == expected) && ...)] from the local
    index [i]. *)
Fixpoint match_pattern_from (i : nat) (expected : list TokenType) : M bool :=
  match expected with
  | [] => ret true
  | e :: rest =>
      tk <- token_at i;;
      if TokenType_eqb (type tk) e then match_pattern_from (S i) rest
      else ret false
  end.

Definition match_pattern (expected : list TokenType) : M bool :=
  i <- get_offset;; match_pattern_from i expected.

(** *** Expressions (lines 214-298) *)

(** Each call of a parser function costs one unit of [fuel]; a [while] or
    [for] loop of the source is the function named [..._loop], one call per
    iteration. *)
Fixpoint parse_expression (fuel : nat) : M Expression :=
  match fuel with
  | O => out_of_fuel
  | S fuel => parse_binary_expression fuel 0%Z
  end

with parse_binary_expression (fuel : nat) (min_precedence : Z)
  : M Expression :=
  match fuel with
  | O => out_of_fuel
  | S fuel =>
      lhs <- parse_unary_expression fuel;;
      parse_binary_expression_loop fuel min_precedence lhs
  end

with parse_binary_expression_loop (fuel : nat) (min_precedence : Z)
  (lhs : Expression) : M Expression :=
  match fuel with
  | O => out_of_fuel
  | S fuel =>
      tk <- current;;
      let op := value tk in
      match lookup operator_precedences op with
      | Some p =>
          if (min_precedence <=? p)%Z then
            (incr_offset;;
             rhs <- parse_binary_expression fuel p;;
             parse_binary_expression_loop fuel min_precedence
               (BinaryOperation op lhs rhs))
          else ret lhs
      | None => ret lhs
      end
  end

with parse_unary_expression (fuel : nat) : M Expression :=
  match fuel with
  | O => out_of_fuel
  | S fuel =>
      tk <- current;;
      let op := value tk in
      if contains unary_operators op then
        (incr_offset;;
         operand <- parse_unary_expression fuel;;
         ret (PrefixExpression op operand))
      else parse_postfix_expression fuel
  end

with parse_postfix_expression (fuel : nat) : M Expression :=
  match fuel with
  | O => out_of_fuel
  | S fuel =>
      base <- parse_primary_expression fuel;;
      parse_postfix_expression_loop fuel base
  end

with parse_postfix_expression_loop (fuel : nat) (base : Expression)
  : M Expression :=
  match fuel with
  | O => out_of_fuel
  | S fuel =>
      inc <- match_token [INCREMENT];;
      if inc : bool then
        parse_postfix_expression_loop fuel (PostfixIncrementExpression base)
      else
        (dec <- match_token [DECREMENT];;
         if dec : bool then
           parse_postfix_expression_loop fuel
             (PostfixDecrementExpression base)
         else
           (call <- match_token [LPAREN];;
            if call : bool then
              (args <- parse_function_call_expression fuel;;
               parse_postfix_expression_loop fuel
                 (FunctionCallExpression base args))
            else
              (sub <- match_token [LBRACKET];;
               if sub : bool then
                 (index <- parse_subscript_expression fuel;;
                  parse_postfix_expression_loop fuel
                    (SubscriptExpression base index))
               else ret base)))
  end

with parse_function_call_expression (fuel : nat) : M (list Expression) :=
  match fuel with
  | O => out_of_fuel
  | S fuel =>
      closed <- match_token [RPAREN];;
      args <- (if closed : bool then ret []
               else parse_function_call_expression_loop fuel []);;
      extract_token [RPAREN];;
      ret args
  end

with parse_function_call_expression_loop (fuel : nat)
  (args : list Expression) : M (list Expression) :=
  match fuel with
  | O => out_of_fuel
  | S fuel =>
      e <- parse_expression fuel;;
      let args := args ++ [e] in
      comma <- match_token [COMMA];;
      if comma : bool then
        (extract_token [COMMA];;
         parse_function_call_expression_loop fuel args)
      else ret args
  end

with parse_subscript_expression (fuel : nat) : M Expression :=
  match fuel with
  | O => out_of_fuel
  | S fuel =>
      index <- parse_expression fuel;;
      extract_token [RBRACKET];;
      ret index
  end

with parse_primary_expression (fuel : nat) : M Expression :=
  match fuel with
  | O => out_of_fuel
  | S fuel =>
      is_int <- check_token [INTEGER_LITERAL];;
      if is_int : bool then
        (v <- extract_token [INTEGER_LITERAL];; ret (IntLiteral v))
      else
      (is_float <- check_token [FLOAT_LITERAL];;
      if is_float : bool then
        (v <- extract_token [FLOAT_LITERAL];; ret (FloatLiteral v))
      else
      (is_char <- check_token [CHAR_LITERAL];;
      if is_char : bool then
        (v <- extract_token [CHAR_LITERAL];; ret (CharLiteral v))
      else
      (is_string <- check_token [STRING_LITERAL];;
      if is_string : bool then
        (v <- extract_token [STRING_LITERAL];; ret (StringLiteral v))
      else
      (is_bool <- check_token [BOOL_LITERAL];;
      if is_bool : bool then
        (v <- extract_token [BOOL_LITERAL];; ret (BoolLiteral v))
      else
      (is_id <- check_token [IDENTIFIER];;
      if is_id : bool then
        (v <- extract_token [IDENTIFIER];; ret (IdentifierExpression v))
      else
      (paren <- match_token [LPAREN];;
      if paren : bool then parse_parenthesized_expression fuel
      else
        (tk <- current;; throw ("Unexpected token " ++ value tk))))))))
  end

with parse_parenthesized_expression (fuel : nat) : M Expression :=
  match fuel with
  | O => out_of_fuel
  | S fuel =>
      expression <- parse_expression fuel;;
      extract_token [RPAREN];;
      ret (ParenthesizedExpression expression)
  end.

(** *** Declarators and variable declarations (lines 58-96) *)

Definition parse_declarator : M Declarator :=
  ptr <- match_pattern [MULTIPLY; IDENTIFIER];;
  if ptr : bool then
    (extract_token [MULTIPLY];;
     id <- extract_token [IDENTIFIER];;
     ret (PtrDeclarator id))
  else
    (plain <- match_pattern [IDENTIFIER];;
     if plain : bool then
       (id <- extract_token [IDENTIFIER];; ret (NoPtrDeclarator id))
     else
       (tk <- current;; throw ("Unexpected token " ++ value tk))).

Definition parse_init_declarator (fuel : nat) : M InitDeclarator :=
  d <- parse_declarator;;
  assign <- match_token [ASSIGNMENT];;
  if assign : bool then
    (e <- parse_expression fuel;; ret (mkInitDeclarator d (Some e)))
  else ret (mkInitDeclarator d None).

(** The two arguments of [std::make_shared<ParameterDeclaration>],
    [extract_token(Token::TYPE)] and [parse_init_declarator()], both move
    the cursor, and are evaluated in the order that the compiler has
    chosen: the type token first and the declarator after it, or the
    declarator first and the type token after it. *)
Definition parse_parameter_declaration (fuel : nat)
  : M ParameterDeclaration :=
  match order with
  | LeftToRight =>
      t <- extract_token [TYPE];;
      d <- parse_init_declarator fuel;;
      ret (mkParameterDeclaration t d)
  | RightToLeft =>
      d <- parse_init_declarator fuel;;
      t <- extract_token [TYPE];;
      ret (mkParameterDeclaration t d)
  end.

Fixpoint parse_var_declaration_loop (fuel : nat)
  (declarators : list InitDeclarator) : M (list InitDeclarator) :=
  match fuel with
  | O => out_of_fuel
  | S fuel =>
      d <- parse_init_declarator fuel;;
      let declarators := declarators ++ [d] in
      comma <- match_token [COMMA];;
      if comma : bool then parse_var_declaration_loop fuel declarators
      else
        (semi <- match_token [SEMICOLON];;
         if semi : bool then ret declarators
         else (tk <- current;; throw ("Unexpected token " ++ value tk)))
  end.

Definition parse_var_declaration (fuel : nat) : M VarDeclaration :=
  t <- extract_token [TYPE];;
  l <- parse_var_declaration_loop fuel [];;
  ret (mkVarDeclaration t l).

(** *** Statements (lines 100-209) *)

Definition parse_for_statement : M Statement := ret ForStatement.

Definition parse_break_statement : M Statement :=
  extract_token [SEMICOLON];; ret BreakStatement.

Definition parse_continue_statement : M Statement :=
  extract_token [SEMICOLON];; ret ContinueStatement.

Definition parse_return_statement (fuel : nat) : M Statement :=
  expression <- parse_expression fuel;;
  extract_token [SEMICOLON];;
  ret (ReturnStatement expression).

Definition parse_jump_statement (fuel : nat) : M Statement :=
  brk <- match_token [BREAK];;
  if brk : bool then parse_break_statement
  else
    (cont <- match_token [CONTINUE];;
     if cont : bool then parse_continue_statement
     else (extract_token [RETURN];; parse_return_statement fuel)).

Definition parse_declaration_statement (fuel : nat) : M Statement :=
  declaration <- parse_var_declaration fuel;;
  ret (DeclarationStatement declaration).

Definition parse_expression_statement (fuel : nat) : M Statement :=
  expression <- parse_expression fuel;;
  extract_token [SEMICOLON];;
  ret (ExpressionStatement expression).

Fixpoint parse_statement (fuel : nat) : M Statement :=
  match fuel with
  | O => out_of_fuel
  | S fuel =>
      lbrace <- match_token [LBRACE];;
      if lbrace : bool then parse_compound_statement fuel
      else
      (kw_if <- match_token [IF];;
      if kw_if : bool then parse_conditional_statement fuel
      else
      (loop <- check_token [WHILE; FOR; REPEAT];;
      if loop : bool then parse_loop_statement fuel
      else
      (jump <- check_token [RETURN; BREAK; CONTINUE];;
      if jump : bool then parse_jump_statement fuel
      else
      (decl <- check_token [TYPE];;
      if decl : bool then parse_declaration_statement fuel
      else parse_expression_statement fuel))))
  end

with parse_compound_statement (fuel : nat) : M Statement :=
  match fuel with
  | O => out_of_fuel
  | S fuel => parse_compound_statement_loop fuel []
  end

with parse_compound_statement_loop (fuel : nat)
  (statements : list Statement) : M Statement :=
  match fuel with
  | O => out_of_fuel
  | S fuel =>
      rbrace <- match_token [RBRACE];;
      if rbrace : bool then ret (CompoundStatement statements)
      else
        (s <- parse_statement fuel;;
         parse_compound_statement_loop fuel (statements ++ [s]))
  end

with parse_conditional_statement (fuel : nat) : M Statement :=
  match fuel with
  | O => out_of_fuel
  | S fuel =>
      extract_token [LPAREN];;
      if_condition <- parse_expression fuel;;
      extract_token [RPAREN];;
      if_statement <- parse_statement fuel;;
      elif_branches <- parse_conditional_statement_loop fuel [];;
      has_else <- match_token [ELSE];;
      else_branch <- (if has_else : bool then
                        (s <- parse_statement fuel;; ret (Some s))
                      else ret None);;
      ret (ConditionalStatement (if_condition, if_statement)
             elif_branches else_branch)
  end

with parse_conditional_statement_loop (fuel : nat)
  (elif_branches : list (Expression * Statement))
  : M (list (Expression * Statement)) :=
  match fuel with
  | O => out_of_fuel
  | S fuel =>
      elif <- match_token [ELIF];;
      if elif : bool then
        (extract_token [LPAREN];;
         elif_condition <- parse_expression fuel;;
         extract_token [RPAREN];;
         elif_statement <- parse_statement fuel;;
         parse_conditional_statement_loop fuel
           (elif_branches ++ [(elif_condition, elif_statement)]))
      else ret elif_branches
  end

with parse_loop_statement (fuel : nat) : M Statement :=
  match fuel with
  | O => out_of_fuel
  | S fuel =>
      kw_while <- match_token [WHILE];;
      if kw_while : bool then parse_while_statement fuel
      else
        (kw_for <- match_token [FOR];;
         if kw_for : bool then parse_for_statement
         else (extract_token [REPEAT];; parse_repeat_statement fuel))
  end

with parse_while_statement (fuel : nat) : M Statement :=
  match fuel with
  | O => out_of_fuel
  | S fuel =>
      extract_token [LPAREN];;
      condition <- parse_expression fuel;;
      extract_token [RPAREN];;
      statement <- parse_statement fuel;;
      ret (WhileStatement condition statement)
  end

with parse_repeat_statement (fuel : nat) : M Statement :=
  match fuel with
  | O => out_of_fuel
  | S fuel =>
      statement <- parse_statement fuel;;
      ret (RepeatStatement statement)
  end.

(** *** Declarations and the driver (lines 12-56) *)

(** The [while (true)] loop of [parse_function_declaration]: it looks at the
    text of the token after each parameter. *)
Fixpoint parse_function_declaration_loop (fuel : nat)
  (args : list ParameterDeclaration) : M (list ParameterDeclaration) :=
  match fuel with
  | O => out_of_fuel
  | S fuel =>
      p <- parse_parameter_declaration fuel;;
      let args := args ++ [p] in
      tk <- current;;
      if value tk =? "," then
        (incr_offset;; parse_function_declaration_loop fuel args)
      else
        (tk' <- current;;
         if value tk' =? ")" then (incr_offset;; ret args)
         else throw "Missing closing parenthesis")
  end.

Definition parse_function_declaration (fuel : nat) : M Declaration :=
  t <- extract_token [TYPE];;
  d <- parse_declarator;;
  extract_token [LPAREN];;
  closed <- match_token [RPAREN];;
  args <- (if closed : bool then ret []
           else parse_function_declaration_loop fuel []);;
  lbrace <- match_token [LBRACE];;
  body <- (if lbrace : bool then
             (b <- parse_compound_statement fuel;; ret (Some b))
           else
             (semi <- match_token [SEMICOLON];;
              if semi : bool then ret None
              else throw "Unexpected token"));;
  ret (FuncDeclaration t d args body).

Definition parse_declaration (fuel : nat) : M Declaration :=
  f1 <- match_pattern [TYPE; IDENTIFIER; LPAREN];;
  f <- (if f1 : bool then ret true
        else match_pattern [TYPE; MULTIPLY; IDENTIFIER; LPAREN]);;
  if f : bool then parse_function_declaration fuel
  else
    (v1 <- match_pattern [TYPE; IDENTIFIER];;
     v <- (if v1 : bool then ret true
           else match_pattern [TYPE; MULTIPLY; IDENTIFIER]);;
     if v : bool then (d <- parse_var_declaration fuel;; ret (VarDecl d))
     else (tk <- current;; throw ("Unexpected token " ++ value tk))).

(** The [while (!match_token(Token::END))] loop of [parse]. *)
Fixpoint parse_loop (fuel : nat) (declarations : list Declaration)
  : M TranslationUnit :=
  match fuel with
  | O => out_of_fuel
  | S fuel =>
      at_end <- match_token [END];;
      if at_end : bool then ret (mkTranslationUnit declarations)
      else
        (d <- parse_declaration fuel;;
         parse_loop fuel (declarations ++ [d]))
  end.

Definition parse (fuel : nat) : M TranslationUnit := parse_loop fuel [].

End Parser.

(** [Parser(tokens).parse()]: the cursor starts at 0. *)
Definition run_parse (tokens : list Token) (order : EvaluationOrder)
  (fuel : nat) : Result TranslationUnit :=
  parse tokens order fuel 0.

(** * Vocabulary of the properties *)

(** The texts on which the parser advances the cursor without looking at
    the token's type: the keys of [operator_precedences] (line 220), the
    members of [unary_operators] (line 228), and [","] and [")"] (lines 39
    and 41). *)
Definition advancing_text (v : string) : bool :=
  match lookup operator_precedences v with Some _ => true | None => false end
  || contains unary_operators v
  || (v =? ",") || (v =? ")").

(** [t] is one of the [expected] types. *)
Definition mentions (t : TokenType) (expected : list TokenType) : bool :=
  existsb (TokenType_eqb t) expected.

(** The message that carries the text of the token at [off]. *)
Definition carries_token_text (tokens : list Token) (what : string)
  (off : nat) : Prop :=
  exists tk, nth_error tokens off = Some tk
             /\ what = ("Unexpected token " ++ value tk)%string.

(** The cursor [off] is where line 45 throws: just after a parameter, on
    a token whose text is neither [","] nor [")"]. *)
Definition after_parameter (tokens : list Token) (order : EvaluationOrder)
  (off : nat) : Prop :=
  exists tk, nth_error tokens off = Some tk
             /\ value tk <> "," /\ value tk <> ")"
             /\ exists fuel o p,
                  parse_parameter_declaration tokens order fuel o = Ok p off.

(** ** Chains and lists of tokens *)

(** The postfix operator that a token of type [INCREMENT] ([true]) or
    [DECREMENT] ([false]) applies. *)
Definition postfix_type (inc : bool) : TokenType :=
  if inc then INCREMENT else DECREMENT.

Definition apply_postfix (base : Expression) (inc : bool) : Expression :=
  if inc then PostfixIncrementExpression base
  else PostfixDecrementExpression base.

(** The tokens of the declarators [id], [ids] of a variable declaration,
    from [off]: identifiers separated by [COMMA] tokens and closed by a
    [SEMICOLON] token. *)
Fixpoint declarators_at (tokens : list Token) (off : nat) (id : string)
  (ids : list string) : Prop :=
  nth_error tokens off = Some (mkToken IDENTIFIER id)
  /\ match ids with
     | [] => exists v, nth_error tokens (S off) = Some (mkToken SEMICOLON v)
     | id' :: ids' =>
         (exists v, nth_error tokens (S off) = Some (mkToken COMMA v))
         /\ declarators_at tokens (S (S off)) id' ids'
     end.

Definition plain_declarator (id : string) : InitDeclarator :=
  mkInitDeclarator (NoPtrDeclarator id) None.

(** The tokens of the parameters [p], [ps] (type and name) of a function
    declaration, from [off]: a type and an identifier each, in the order
    in which [parse_parameter_declaration] reads them, separated by tokens
    whose text is [","] and closed by a token whose text is [")"], none of
    them of type [ASSIGNMENT]. *)
Fixpoint parameters_at (tokens : list Token) (order : EvaluationOrder)
  (off : nat) (p : string * string) (ps : list (string * string)) : Prop :=
  match order with
  | LeftToRight =>
      nth_error tokens off = Some (mkToken TYPE (fst p))
      /\ nth_error tokens (S off) = Some (mkToken IDENTIFIER (snd p))
  | RightToLeft =>
      nth_error tokens off = Some (mkToken IDENTIFIER (snd p))
      /\ nth_error tokens (S off) = Some (mkToken TYPE (fst p))
  end
  /\ match ps with
     | [] =>
         exists ty, TokenType_eqb ty ASSIGNMENT = false
                    /\ nth_error tokens (S (S off)) = Some (mkToken ty ")")
     | p' :: ps' =>
         (exists ty, TokenType_eqb ty ASSIGNMENT = false
                     /\ nth_error tokens (S (S off))
                        = Some (mkToken ty ","))
         /\ parameters_at tokens order (S (S (S off))) p' ps'
     end.

Definition plain_parameter (p : string * string) : ParameterDeclaration :=
  mkParameterDeclaration (fst p) (plain_declarator (snd p)).

(** ** Sample token vectors *)

Definition tok_int (v : string) : Token := mkToken INTEGER_LITERAL v.
Definition tok_id (v : string) : Token := mkToken IDENTIFIER v.
Definition tok_type (v : string) : Token := mkToken TYPE v.
Definition tok_lparen : Token := mkToken LPAREN "(".
Definition tok_rparen : Token := mkToken RPAREN ")".
Definition tok_semicolon : Token := mkToken SEMICOLON ";".
Definition tok_comma : Token := mkToken COMMA ",".
Definition tok_assign : Token := mkToken ASSIGNMENT "=".
Definition tok_end : Token := mkToken END "EOF".

(** [1 op 2 op 3 ;] with the operator tokens of type [ty]. *)
Definition chain_tokens (ty : TokenType) (op : string) : list Token :=
  [tok_int "1"; mkToken ty op; tok_int "2"; mkToken ty op; tok_int "3";
   tok_semicolon; tok_end].

(** [1 + 2 * 3 ;] *)
Definition sum_product_tokens : list Token :=
  [tok_int "1"; mkToken (OTHER "PLUS") "+"; tok_int "2";
   mkToken MULTIPLY "*"; tok_int "3"; tok_semicolon; tok_end].

(** [f ( a , b ) ;] *)
Definition call_two_tokens : list Token :=
  [tok_id "f"; tok_lparen; tok_id "a"; tok_comma; tok_id "b"; tok_rparen;
   tok_semicolon; tok_end].

(** [f ( ) ;] *)
Definition call_none_tokens : list Token :=
  [tok_id "f"; tok_lparen; tok_rparen; tok_semicolon; tok_end].

(** [f ( a , , b ) ;] *)
Definition call_double_comma_tokens : list Token :=
  [tok_id "f"; tok_lparen; tok_id "a"; tok_comma; tok_comma; tok_id "b";
   tok_rparen; tok_semicolon; tok_end].

(** The two tokens of the parameter [t id], in the order in which
    [parse_parameter_declaration] reads them. *)
Definition parameter_tokens (order : EvaluationOrder) (t id : string)
  : list Token :=
  match order with
  | LeftToRight => [tok_type t; tok_id id]
  | RightToLeft => [tok_id id; tok_type t]
  end.

(** [int f ( <int a> sep <int b> close ;] *)
Definition two_parameter_tokens (order : EvaluationOrder)
  (sep close : Token) : list Token :=
  [tok_type "int"; tok_id "f"; tok_lparen]
  ++ parameter_tokens order "int" "a" ++ [sep]
  ++ parameter_tokens order "int" "b" ++ [close; tok_semicolon; tok_end].


(** [int f ( <int x> ;] *)
Definition unclosed_parameter_tokens (order : EvaluationOrder)
  : list Token :=
  [tok_type "int"; tok_id "f"; tok_lparen]
  ++ parameter_tokens order "int" "x" ++ [tok_semicolon; tok_end].

(** [int f ( x int], the tokens before the last one. *)
Definition paren_sentinel_body : list Token :=
  [tok_type "int"; tok_id "f"; tok_lparen]
  ++ parameter_tokens RightToLeft "int" "x".

(** [int f ( <int x>] and a last token of type [END] whose text is
    [")"]. *)
Definition paren_sentinel_tokens (order : EvaluationOrder) : list Token :=
  [tok_type "int"; tok_id "f"; tok_lparen]
  ++ parameter_tokens order "int" "x" ++ [mkToken END ")"].

(** [int x] with the terminator missing. *)
Definition unterminated_tokens : list Token :=
  [tok_type "int"; tok_id "x"; tok_end].

(** * Reasoning about runs *)

Lemma TokenType_eqb_eq (a b : TokenType) : TokenType_eqb a b = true <-> a = b.
Proof.
  unfold TokenType_eqb. destruct (TokenType_eq_dec a b); split; congruence.
Qed.

Lemma mentions_cons_false (t e : TokenType) (rest : list TokenType) :
  mentions t (e :: rest) = false -> e <> t /\ mentions t rest = false.
Proof.
  unfold mentions. simpl. intros H. apply orb_false_iff in H as [H1 H2].
  split; [|exact H2]. intros ->.
  assert (TokenType_eqb t t = true) by (apply TokenType_eqb_eq; reflexivity).
  congruence.
Qed.

(** The tables are looked up by computation on closed texts only. *)
Arguments lookup : simpl never.
Arguments contains : simpl never.
Arguments String.eqb : simpl never.
Arguments check_token : simpl never.
Arguments match_pattern_from : simpl never.

Section Logic.

Variable tokens : list Token.
Variable order : EvaluationOrder.

(** What is to hold of a thrown error, of an access out of range, and of a
    run cut short by the recursion bound. *)
Variable E : string -> nat -> Prop.
Variable B : Prop.
Variable F : Prop.

(** [wp m Q off]: run from [off], [m] returns a value and a cursor in [Q],
    or throws within [E], or leaves the vector only if [B], or runs out of
    fuel only if [F]. *)
Definition wp {A} (m : M A) (Q : A -> nat -> Prop) (off : nat) : Prop :=
  match m off with
  | Ok a off' => Q a off'
  | Throw what off' => E what off'
  | OutOfRange => B
  | OutOfFuel => F
  end.

Lemma wp_ret {A} (a : A) (Q : A -> nat -> Prop) off :
  Q a off -> wp (ret a) Q off.
Proof. exact (fun H => H). Qed.

Lemma wp_throw {A} what (Q : A -> nat -> Prop) off :
  E what off -> wp (throw what) Q off.
Proof. exact (fun H => H). Qed.

Lemma wp_out_of_fuel {A} (Q : A -> nat -> Prop) off :
  F -> wp out_of_fuel Q off.
Proof. exact (fun H => H). Qed.

Lemma wp_bind {A C} (m : M A) (f : A -> M C) (Q : C -> nat -> Prop) off :
  wp m (fun a off' => wp (f a) Q off') off -> wp (bind m f) Q off.
Proof.
  unfold wp, bind. destruct (m off); auto.
Qed.

Lemma wp_mono {A} (m : M A) (Q Q' : A -> nat -> Prop) off :
  (forall a off', Q a off' -> Q' a off') -> wp m Q off -> wp m Q' off.
Proof.
  unfold wp. intros HQ. destruct (m off); auto.
Qed.

Lemma wp_incr_offset (Q : unit -> nat -> Prop) off :
  Q tt (S off) -> wp incr_offset Q off.
Proof. exact (fun H => H). Qed.

Lemma wp_token_at i (Q : Token -> nat -> Prop) off :
  (nth_error tokens i = None -> B) ->
  (forall tk, nth_error tokens i = Some tk -> Q tk off) ->
  wp (token_at tokens i) Q off.
Proof.
  unfold wp, token_at. destruct (nth_error tokens i); auto.
Qed.

Lemma wp_current (Q : Token -> nat -> Prop) off :
  (nth_error tokens off = None -> B) ->
  (forall tk, nth_error tokens off = Some tk -> Q tk off) ->
  wp (current tokens) Q off.
Proof.
  intros HB HQ. unfold current. apply wp_bind. unfold wp at 1. simpl.
  apply wp_token_at; assumption.
Qed.

(** ** An invariant of the cursor *)

Section Invariant.

(** [Inv] is kept by every step that advances over a token whose type is
    not [END] or whose text is an advancing text; within [Inv] an access at
    the cursor is in range (or [B]); the three forms of error message are
    within [E], the one of line 45 where it is thrown: after a parameter,
    at a token whose text is neither [","] nor [")"]; nothing is asked of
    a run that is cut short. *)
Variable Inv : nat -> Prop.

Hypothesis F_holds : F.

Hypothesis Inv_type : forall off tk,
  Inv off -> nth_error tokens off = Some tk -> type tk <> END -> Inv (S off).
Hypothesis Inv_text : forall off tk,
  Inv off -> nth_error tokens off = Some tk ->
  advancing_text (value tk) = true -> Inv (S off).
Hypothesis Inv_range : forall off,
  Inv off -> nth_error tokens off = None -> B.
Hypothesis E_unexpected : forall off tk,
  nth_error tokens off = Some tk -> E ("Unexpected token " ++ value tk) off.
Hypothesis E_missing : forall fuel o p off tk,
  parse_parameter_declaration tokens order fuel o = Ok p off ->
  nth_error tokens off = Some tk ->
  (value tk =? ",") = false -> (value tk =? ")") = false ->
  E "Missing closing parenthesis" off.
Hypothesis E_bare : forall off, E "Unexpected token" off.

(** [keeps m]: from a cursor within [Inv], [m] stays within [wp] and leaves
    the cursor within [Inv]. *)
Definition keeps {A} (m : M A) : Prop :=
  forall off, Inv off -> wp m (fun _ off' => Inv off') off.

Lemma keeps_ret {A} (a : A) : keeps (ret a).
Proof. intros off H. exact H. Qed.

Lemma keeps_out_of_fuel {A} : keeps (@out_of_fuel A).
Proof. intros off H. exact F_holds. Qed.

Lemma keeps_bind {A C} (m : M A) (f : A -> M C) :
  keeps m -> (forall a, keeps (f a)) -> keeps (bind m f).
Proof.
  intros Hm Hf off H. apply wp_bind.
  apply wp_mono with (Q := fun _ off' => Inv off'); [|apply Hm; exact H].
  intros a off' H'. apply Hf. exact H'.
Qed.

Lemma keeps_if {A} (b : bool) (m1 m2 : M A) :
  keeps m1 -> keeps m2 -> keeps (if b then m1 else m2).
Proof. destruct b; auto. Qed.

(** The cursor is read, then the continuation runs knowing the token. *)
Lemma wp_bind_current {A} (f : Token -> M A) (Q : A -> nat -> Prop) off :
  Inv off ->
  (forall tk, nth_error tokens off = Some tk -> wp (f tk) Q off) ->
  wp (bind (current tokens) f) Q off.
Proof.
  intros H Hf. apply wp_bind. apply wp_current; [apply Inv_range, H | exact Hf].
Qed.

Lemma wp_bind_incr_offset {A} (k : M A) (Q : A -> nat -> Prop) off :
  wp k Q (S off) -> wp (bind incr_offset (fun _ => k)) Q off.
Proof. intros H. apply wp_bind. exact H. Qed.

Lemma keeps_throw_unexpected {A} :
  keeps (bind (current tokens)
           (fun tk => @throw A ("Unexpected token " ++ value tk))).
Proof.
  intros off H. apply wp_bind_current; [exact H|].
  intros tk Htk. apply wp_throw. apply E_unexpected. exact Htk.
Qed.

Lemma wp_check_token expected (Q : bool -> nat -> Prop) off :
  Inv off ->
  (forall tk, nth_error tokens off = Some tk ->
     Q (mentions (type tk) expected) off) ->
  Q false off ->
  wp (check_token tokens expected) Q off.
Proof.
  intros H. induction expected as [|e rest IH]; intros HQ Hf; simpl.
  - exact Hf.
  - apply wp_bind_current; [exact H|]. intros tk Htk.
    specialize (HQ tk Htk). unfold mentions in HQ. simpl in HQ.
    destruct (TokenType_eqb (type tk) e) eqn:He.
    + apply wp_ret. exact HQ.
    + apply IH; [|exact Hf]. intros tk' Htk'.
      assert (tk' = tk) by congruence. subst tk'. exact HQ.
Qed.

Lemma keeps_check_token expected : keeps (check_token tokens expected).
Proof.
  intros off H. apply wp_check_token; auto.
Qed.

(** [match_token], whatever is expected: the cursor is where it was, or one
    further on a token of an expected type. *)
Lemma wp_match_token expected (Q : bool -> nat -> Prop) off :
  Inv off ->
  (forall tk, nth_error tokens off = Some tk ->
     mentions (type tk) expected = true -> Q true (S off)) ->
  Q false off ->
  wp (match_token tokens expected) Q off.
Proof.
  intros H Ht Hf. unfold match_token. apply wp_bind.
  apply wp_check_token; [exact H | | apply wp_ret; exact Hf].
  intros tk Htk. destruct (mentions (type tk) expected) eqn:Hm.
  - apply wp_bind_incr_offset, wp_ret. eapply Ht; eauto.
  - apply wp_ret. exact Hf.
Qed.

Lemma mentions_not_END expected t :
  mentions END expected = false -> mentions t expected = true -> t <> END.
Proof.
  intros HE Ht ->. congruence.
Qed.

Lemma keeps_match_token expected :
  mentions END expected = false -> keeps (match_token tokens expected).
Proof.
  intros HE off H. apply wp_match_token; auto.
  intros tk Htk Hm.
  apply Inv_type with tk;
    [exact H | exact Htk | exact (mentions_not_END _ _ HE Hm)].
Qed.

Lemma keeps_extract_token expected :
  mentions END expected = false -> keeps (extract_token tokens expected).
Proof.
  intros HE off H. unfold extract_token. apply wp_bind.
  apply wp_check_token; [exact H | | ].
  - intros tk Htk. destruct (mentions (type tk) expected) eqn:Hm.
    + apply wp_bind_current; [exact H|]. intros tk' Htk'.
      apply wp_bind_incr_offset, wp_ret.
      apply Inv_type with tk;
        [exact H | exact Htk | exact (mentions_not_END _ _ HE Hm)].
    + apply keeps_throw_unexpected. exact H.
  - apply keeps_throw_unexpected. exact H.
Qed.

Lemma wp_match_pattern_from expected : forall i (Q : bool -> nat -> Prop) off,
  mentions END expected = false ->
  Inv i -> (forall b, Q b off) ->
  wp (match_pattern_from tokens i expected) Q off.
Proof.
  induction expected as [|e rest IH]; intros i Q off HE Hi HQ; simpl.
  - apply wp_ret, HQ.
  - apply mentions_cons_false in HE as [He HE].
    apply wp_bind. apply wp_token_at; [apply Inv_range, Hi|].
    intros tk Htk. destruct (TokenType_eqb (type tk) e) eqn:Heq.
    + apply IH; [exact HE | | exact HQ]. apply Inv_type with tk; auto.
      apply TokenType_eqb_eq in Heq. congruence.
    + apply wp_ret, HQ.
Qed.

Lemma keeps_match_pattern expected :
  mentions END expected = false -> keeps (match_pattern tokens expected).
Proof.
  intros HE off H. unfold match_pattern. apply wp_bind. unfold wp at 1. simpl.
  apply wp_match_pattern_from; auto.
Qed.

Lemma keeps_wp {A} (m : M A) off :
  keeps m -> Inv off -> wp m (fun _ off' => Inv off') off.
Proof. intros Hm H. exact (Hm off H). Qed.

(** Goals [keeps m] for [m] built from the cursor primitives, from calls
    already known to keep the invariant, and from [bind] and [if]. *)
Ltac keeps_auto :=
  repeat first
    [ assumption
    | apply keeps_ret
    | apply keeps_out_of_fuel
    | apply keeps_throw_unexpected
    | apply keeps_check_token
    | apply keeps_match_token; reflexivity
    | apply keeps_extract_token; reflexivity
    | apply keeps_match_pattern; reflexivity
    | apply keeps_if
    | apply keeps_bind; [| intros ?]
    | match goal with H : forall _, _ |- _ => apply H end ].

(** ** The invariant through the expression parser *)

Definition keeps_expressions (fuel : nat) : Prop :=
  keeps (parse_expression tokens fuel)
  /\ (forall p, keeps (parse_binary_expression tokens fuel p))
  /\ (forall p lhs, keeps (parse_binary_expression_loop tokens fuel p lhs))
  /\ keeps (parse_unary_expression tokens fuel)
  /\ keeps (parse_postfix_expression tokens fuel)
  /\ (forall base, keeps (parse_postfix_expression_loop tokens fuel base))
  /\ keeps (parse_function_call_expression tokens fuel)
  /\ (forall args,
        keeps (parse_function_call_expression_loop tokens fuel args))
  /\ keeps (parse_subscript_expression tokens fuel)
  /\ keeps (parse_primary_expression tokens fuel)
  /\ keeps (parse_parenthesized_expression tokens fuel).

Lemma keeps_expressions_all : forall fuel, keeps_expressions fuel.
Proof.
  induction fuel as [|fuel IH]; unfold keeps_expressions.
  - repeat split; intros; apply keeps_out_of_fuel.
  - destruct IH as
      (Hexpr & Hbin & Hbinl & Hun & Hpost & Hpostl & Hcall & Hcalll
       & Hsub & Hprim & Hparen).
    repeat split; intros; simpl.
    + keeps_auto.
    + keeps_auto.
    + intros off H. apply wp_bind_current; [exact H|]. intros tk Htk.
      cbv zeta.
      destruct (lookup operator_precedences (value tk)) as [q|] eqn:Hq;
        [destruct (p <=? q)%Z|]; cbv beta iota;
        try (apply wp_ret; exact H).
      apply wp_bind_incr_offset. apply keeps_wp; [keeps_auto|].
      apply Inv_text with tk; auto.
      unfold advancing_text. rewrite Hq. reflexivity.
    + intros off H. apply wp_bind_current; [exact H|]. intros tk Htk.
      cbv zeta.
      destruct (contains unary_operators (value tk)) eqn:Hu;
        cbv beta iota.
      * apply wp_bind_incr_offset. apply keeps_wp; [keeps_auto|].
        apply Inv_text with tk; auto.
        unfold advancing_text. rewrite Hu.
        destruct (lookup operator_precedences (value tk)); reflexivity.
      * apply keeps_wp; [keeps_auto | exact H].
    + keeps_auto.
    + keeps_auto.
    + keeps_auto.
    + keeps_auto.
    + keeps_auto.
    + keeps_auto.
    + keeps_auto.
Qed.

Lemma keeps_parse_expression fuel : keeps (parse_expression tokens fuel).
Proof. exact (proj1 (keeps_expressions_all fuel)). Qed.

(** ** The invariant through declarators and variable declarations *)

Lemma keeps_parse_declarator : keeps (parse_declarator tokens).
Proof. unfold parse_declarator. keeps_auto. Qed.

Lemma keeps_parse_init_declarator fuel :
  keeps (parse_init_declarator tokens fuel).
Proof.
  unfold parse_init_declarator.
  pose proof keeps_parse_declarator. pose proof (keeps_parse_expression fuel).
  keeps_auto.
Qed.

Lemma keeps_parse_parameter_declaration fuel :
  keeps (parse_parameter_declaration tokens order fuel).
Proof.
  unfold parse_parameter_declaration.
  pose proof (keeps_parse_init_declarator fuel). destruct order; keeps_auto.
Qed.

Lemma keeps_parse_var_declaration_loop :
  forall fuel l, keeps (parse_var_declaration_loop tokens fuel l).
Proof.
  induction fuel as [|fuel IH]; intros l; simpl.
  - apply keeps_out_of_fuel.
  - pose proof (keeps_parse_init_declarator fuel). keeps_auto.
Qed.

Lemma keeps_parse_var_declaration fuel :
  keeps (parse_var_declaration tokens fuel).
Proof.
  unfold parse_var_declaration.
  pose proof (keeps_parse_var_declaration_loop fuel). keeps_auto.
Qed.

(** ** The invariant through statements *)

Lemma keeps_parse_jump_statement fuel :
  keeps (parse_jump_statement tokens fuel).
Proof.
  unfold parse_jump_statement, parse_break_statement,
    parse_continue_statement, parse_return_statement.
  pose proof (keeps_parse_expression fuel). keeps_auto.
Qed.

Lemma keeps_parse_declaration_statement fuel :
  keeps (parse_declaration_statement tokens fuel).
Proof.
  unfold parse_declaration_statement.
  pose proof (keeps_parse_var_declaration fuel). keeps_auto.
Qed.

Lemma keeps_parse_expression_statement fuel :
  keeps (parse_expression_statement tokens fuel).
Proof.
  unfold parse_expression_statement.
  pose proof (keeps_parse_expression fuel). keeps_auto.
Qed.

Definition keeps_statements (fuel : nat) : Prop :=
  keeps (parse_statement tokens fuel)
  /\ keeps (parse_compound_statement tokens fuel)
  /\ (forall l, keeps (parse_compound_statement_loop tokens fuel l))
  /\ keeps (parse_conditional_statement tokens fuel)
  /\ (forall l, keeps (parse_conditional_statement_loop tokens fuel l))
  /\ keeps (parse_loop_statement tokens fuel)
  /\ keeps (parse_while_statement tokens fuel)
  /\ keeps (parse_repeat_statement tokens fuel).

Lemma keeps_statements_all : forall fuel, keeps_statements fuel.
Proof.
  induction fuel as [|fuel IH]; unfold keeps_statements.
  - repeat split; intros; apply keeps_out_of_fuel.
  - destruct IH as (Hst & Hcomp & Hcompl & Hcond & Hcondl & Hloop & Hwhile
                    & Hrep).
    pose proof (keeps_parse_expression fuel).
    pose proof (keeps_parse_jump_statement fuel).
    pose proof (keeps_parse_declaration_statement fuel).
    pose proof (keeps_parse_expression_statement fuel).
    repeat split; intros; simpl; unfold parse_for_statement; keeps_auto.
Qed.

Lemma keeps_parse_compound_statement fuel :
  keeps (parse_compound_statement tokens fuel).
Proof. exact (proj1 (proj2 (keeps_statements_all fuel))). Qed.

(** ** The invariant through declarations *)

(** The value and the cursor that [Q] is asked of are those of the run. *)
Lemma wp_recorded {A} (m : M A) (Q : A -> nat -> Prop) off :
  wp m (fun a off' => m off = Ok a off' -> Q a off') off -> wp m Q off.
Proof.
  unfold wp. destruct (m off) as [a off'| | |]; auto.
Qed.

Lemma keeps_parse_function_declaration_loop :
  forall fuel args,
  keeps (parse_function_declaration_loop tokens order fuel args).
Proof.
  induction fuel as [|fuel IH]; intros args; simpl.
  - apply keeps_out_of_fuel.
  - intros off0 H0. apply wp_bind, wp_recorded.
    apply wp_mono with (Q := fun _ off' => Inv off');
      [|apply keeps_parse_parameter_declaration; exact H0].
    intros p off H Hp. apply wp_bind_current; [exact H|]. intros tk Htk.
    destruct (value tk =? ",") eqn:Hc.
    + apply wp_bind_incr_offset. apply keeps_wp; [apply IH|].
      apply Inv_text with tk; auto.
      unfold advancing_text. rewrite Hc.
      rewrite orb_true_r. reflexivity.
    + apply wp_bind_current; [exact H|]. intros tk' Htk'.
      destruct (value tk' =? ")") eqn:Hp0.
      * apply wp_bind_incr_offset, wp_ret.
        apply Inv_text with tk'; auto.
        unfold advancing_text. rewrite Hp0. apply orb_true_r.
      * apply wp_throw.
        assert (tk' = tk) by congruence. subst tk'.
        exact (E_missing _ _ _ _ _ Hp Htk Hc Hp0).
Qed.

Lemma keeps_throw_bare {A} : keeps (@throw A "Unexpected token").
Proof. intros off H. apply wp_throw, E_bare. Qed.

Lemma keeps_parse_function_declaration fuel :
  keeps (parse_function_declaration tokens order fuel).
Proof.
  unfold parse_function_declaration.
  pose proof keeps_parse_declarator.
  pose proof (keeps_parse_function_declaration_loop fuel).
  pose proof (keeps_parse_compound_statement fuel).
  pose proof (@keeps_throw_bare (option Statement)).
  keeps_auto.
Qed.

Lemma keeps_parse_declaration fuel : keeps (parse_declaration tokens order fuel).
Proof.
  unfold parse_declaration.
  pose proof (keeps_parse_function_declaration fuel).
  pose proof (keeps_parse_var_declaration fuel).
  keeps_auto.
Qed.

(** The driver asks for [END], so it may step onto the position after the
    last token; it then returns at once. *)
Lemma wp_parse_loop : forall fuel l off,
  Inv off -> wp (parse_loop tokens order fuel l) (fun _ _ => True) off.
Proof.
  induction fuel as [|fuel IH]; intros l off H; simpl.
  - exact F_holds.
  - apply wp_bind. apply wp_match_token; [exact H | |].
    + intros tk _ _. apply wp_ret. exact I.
    + apply wp_bind.
      apply wp_mono with (Q := fun _ off' => Inv off');
        [|apply keeps_parse_declaration; exact H].
      intros d off' H'. apply IH. exact H'.
Qed.

Lemma wp_parse fuel :
  Inv 0 -> wp (parse tokens order fuel) (fun _ _ => True) 0.
Proof. intros H. apply wp_parse_loop. exact H. Qed.

End Invariant.

End Logic.

(** * The cursor primitives at a token *)

Section Cursor.

Variable tokens : list Token.

Lemma current_at off tk :
  nth_error tokens off = Some tk -> current tokens off = Ok tk off.
Proof.
  intros H. unfold current, bind, get_offset, token_at. rewrite H. reflexivity.
Qed.

Lemma check_token_at expected off tk :
  nth_error tokens off = Some tk ->
  check_token tokens expected off = Ok (mentions (type tk) expected) off.
Proof.
  intros H. induction expected as [|e rest IH]; [reflexivity|].
  change (check_token tokens (e :: rest) off)
    with (bind (current tokens)
            (fun tk => if TokenType_eqb (type tk) e then ret true
                       else check_token tokens rest) off).
  unfold bind. rewrite (current_at _ _ H).
  unfold mentions. simpl.
  destruct (TokenType_eqb (type tk) e); [reflexivity | exact IH].
Qed.

Lemma match_token_at expected off tk :
  nth_error tokens off = Some tk ->
  match_token tokens expected off =
    if mentions (type tk) expected then Ok true (S off) else Ok false off.
Proof.
  intros H. unfold match_token, bind. rewrite (check_token_at _ _ _ H).
  destruct (mentions (type tk) expected); reflexivity.
Qed.

Lemma extract_token_at expected off tk :
  nth_error tokens off = Some tk ->
  extract_token tokens expected off =
    if mentions (type tk) expected then Ok (value tk) (S off)
    else Throw ("Unexpected token " ++ value tk) off.
Proof.
  intros H. unfold extract_token, bind. rewrite (check_token_at _ _ _ H).
  destruct (mentions (type tk) expected);
    rewrite (current_at _ _ H); reflexivity.
Qed.

Lemma match_pattern_from_frame expected : forall i off,
  match_pattern_from tokens i expected off = OutOfRange
  \/ exists b, match_pattern_from tokens i expected off = Ok b off.
Proof.
  induction expected as [|e rest IH]; intros i off.
  - right. exists true. reflexivity.
  - change (match_pattern_from tokens i (e :: rest) off)
      with (bind (token_at tokens i)
              (fun tk => if TokenType_eqb (type tk) e
                         then match_pattern_from tokens (S i) rest
                         else ret false) off).
    unfold bind, token_at. destruct (nth_error tokens i) as [tk|].
    + destruct (TokenType_eqb (type tk) e).
      * apply IH.
      * right. exists false. reflexivity.
    + left. reflexivity.
Qed.

Lemma match_pattern_from_in_range expected : forall i off,
  i + List.length expected <= List.length tokens ->
  exists b, match_pattern_from tokens i expected off = Ok b off.
Proof.
  induction expected as [|e rest IH]; intros i off Hlen.
  - exists true. reflexivity.
  - change (match_pattern_from tokens i (e :: rest) off)
      with (bind (token_at tokens i)
              (fun tk => if TokenType_eqb (type tk) e
                         then match_pattern_from tokens (S i) rest
                         else ret false) off).
    simpl in Hlen. unfold bind, token_at.
    destruct (nth_error tokens i) as [tk|] eqn:Htk.
    + destruct (TokenType_eqb (type tk) e).
      * apply IH. lia.
      * exists false. reflexivity.
    + apply nth_error_None in Htk. lia.
Qed.

Lemma match_token_none e rest off :
  nth_error tokens off = None ->
  match_token tokens (e :: rest) off = OutOfRange.
Proof.
  intros H. unfold match_token.
  change (check_token tokens (e :: rest))
    with (bind (current tokens)
            (fun tk => if TokenType_eqb (type tk) e then ret true
                       else check_token tokens rest)).
  unfold current, get_offset, token_at, bind. cbv beta iota.
  rewrite H. reflexivity.
Qed.




End Cursor.

(** * Termination *)

(** Every parser function returns, throws or leaves the vector when its
    fuel is at least a constant plus sixteen units for each token from the
    cursor to the end of the vector: between two advances of the cursor
    the calls nest less than sixteen deep. *)

Section Termination.

Variable tokens : list Token.
Variable order : EvaluationOrder.

Local Notation "'size'" := (List.length tokens).

(** The run does not stop for lack of fuel; if it returns, [Q] holds. *)
Local Notation "'finishes'" := (wp (fun _ _ => True) True False).

(** The call has advanced the cursor from [off], which was on a token. *)
Definition advanced {A} (off : nat) : A -> nat -> Prop :=
  fun _ off' => off < off' /\ off < size.

Definition not_behind {A} (off : nat) : A -> nat -> Prop :=
  fun _ off' => off <= off'.

Lemma wp_call {A C} (m : M A) (f : A -> M C) (Q : A -> nat -> Prop)
  (Q' : C -> nat -> Prop) off :
  finishes m Q off ->
  (forall a off', Q a off' -> finishes (f a) Q' off') ->
  finishes (bind m f) Q' off.
Proof.
  intros Hm Hf. apply wp_bind.
  apply wp_mono with (Q := Q); [exact Hf | exact Hm].
Qed.

Lemma wp_tail {A} (m : M A) (Q Q' : A -> nat -> Prop) off :
  finishes m Q off ->
  (forall a off', Q a off' -> Q' a off') ->
  finishes m Q' off.
Proof. intros Hm HQ. apply wp_mono with (Q := Q); assumption. Qed.

Lemma wp_bind_assoc {A C D} (m : M A) (f : A -> M C) (g : C -> M D)
  (Q : D -> nat -> Prop) off :
  finishes (bind m (fun a => bind (f a) g)) Q off ->
  finishes (bind (bind m f) g) Q off.
Proof. unfold wp, bind. destruct (m off); auto. Qed.

Lemma finishes_current (Q : Token -> nat -> Prop) off :
  (forall tk, off < size -> Q tk off) -> finishes (current tokens) Q off.
Proof.
  intros HQ. apply wp_current; [exact (fun _ => I)|].
  intros tk Htk. apply HQ. apply nth_error_Some. congruence.
Qed.

Lemma finishes_check_token expected (Q : bool -> nat -> Prop) off :
  (forall b, Q b off) -> finishes (check_token tokens expected) Q off.
Proof.
  intros HQ. induction expected as [|e rest IH].
  - apply wp_ret, HQ.
  - change (check_token tokens (e :: rest))
      with (bind (current tokens)
              (fun tk => if TokenType_eqb (type tk) e then ret true
                         else check_token tokens rest)).
    apply wp_bind, finishes_current. intros tk _.
    destruct (TokenType_eqb (type tk) e); [apply wp_ret, HQ | exact IH].
Qed.

Lemma finishes_check_token_at expected (Q : bool -> nat -> Prop) off :
  (off < size -> Q true off) -> Q false off ->
  finishes (check_token tokens expected) Q off.
Proof.
  intros Ht Hf. induction expected as [|e rest IH].
  - apply wp_ret, Hf.
  - change (check_token tokens (e :: rest))
      with (bind (current tokens)
              (fun tk => if TokenType_eqb (type tk) e then ret true
                         else check_token tokens rest)).
    apply wp_bind, finishes_current. intros tk Hlt.
    destruct (TokenType_eqb (type tk) e); [apply wp_ret, Ht, Hlt | exact IH].
Qed.

Lemma finishes_match_token expected (Q : bool -> nat -> Prop) off :
  (off < size -> Q true (S off)) -> Q false off ->
  finishes (match_token tokens expected) Q off.
Proof.
  intros Ht Hf. unfold match_token. apply wp_bind.
  apply finishes_check_token_at.
  - intros Hlt. apply wp_bind, wp_incr_offset, wp_ret, Ht, Hlt.
  - apply wp_ret, Hf.
Qed.

Lemma finishes_extract_token expected (Q : string -> nat -> Prop) off :
  (forall v, off < size -> Q v (S off)) ->
  finishes (extract_token tokens expected) Q off.
Proof.
  intros HQ. unfold extract_token. apply wp_bind.
  apply finishes_check_token. intros [|].
  - apply wp_bind, finishes_current. intros tk Hlt.
    apply wp_bind, wp_incr_offset, wp_ret, HQ, Hlt.
  - apply wp_bind, finishes_current. intros tk _. exact I.
Qed.

Lemma finishes_match_pattern_from expected : forall i
  (Q : bool -> nat -> Prop) off,
  (forall b, Q b off) ->
  finishes (match_pattern_from tokens i expected) Q off.
Proof.
  induction expected as [|e rest IH]; intros i Q off HQ.
  - apply wp_ret, HQ.
  - change (match_pattern_from tokens i (e :: rest))
      with (bind (token_at tokens i)
              (fun tk => if TokenType_eqb (type tk) e
                         then match_pattern_from tokens (S i) rest
                         else ret false)).
    apply wp_bind, wp_token_at; [exact (fun _ => I)|]. intros tk _.
    destruct (TokenType_eqb (type tk) e); [apply IH, HQ | apply wp_ret, HQ].
Qed.

Lemma finishes_match_pattern expected (Q : bool -> nat -> Prop) off :
  (forall b, Q b off) -> finishes (match_pattern tokens expected) Q off.
Proof.
  intros HQ. unfold match_pattern. apply wp_bind. unfold wp at 1. simpl.
  apply finishes_match_pattern_from, HQ.
Qed.

(** One step through a parser body: a primitive by its lemma above, a call
    by a fact of the context, whose fuel bound is left to [lia]. *)
Ltac finish_call :=
  match goal with
  | H : forall _, _ |- _ => apply H; lia
  | H : forall _ _, _ |- _ => apply H; lia
  | H : forall _ _ _, _ |- _ => apply H; lia
  end.

Ltac finish_post :=
  unfold advanced, not_behind in *; intros;
  repeat match goal with H : _ /\ _ |- _ => destruct H end;
  try lia.

Ltac finish_step :=
  match goal with
  | |- wp _ _ _ (bind (bind _ _) _) _ _ => apply wp_bind_assoc
  | |- wp _ _ _ (bind (if ?b then _ else _) _) _ _ => destruct b
  | |- wp _ _ _ (bind (ret _) _) _ _ => apply wp_bind, wp_ret
  | |- wp _ _ _ (bind (throw _) _) _ _ => exact I
  | |- wp _ _ _ (bind incr_offset _) _ _ => apply wp_bind, wp_incr_offset
  | |- wp _ _ _ (bind (current _) _) _ _ =>
      apply wp_bind, finishes_current; intros ? ?
  | |- wp _ _ _ (bind (check_token _ _) _) _ _ =>
      apply wp_bind, finishes_check_token; intros ?
  | |- wp _ _ _ (bind (match_token _ _) _) _ _ =>
      apply wp_bind, finishes_match_token; [intros ?|]
  | |- wp _ _ _ (bind (extract_token _ _) _) _ _ =>
      apply wp_bind, finishes_extract_token; intros ? ?
  | |- wp _ _ _ (bind (match_pattern _ _) _) _ _ =>
      apply wp_bind, finishes_match_pattern; intros ?
  | |- wp _ _ _ (bind _ _) _ _ =>
      eapply wp_call; [finish_call | finish_post]
  | |- wp _ _ _ (if ?b then _ else _) _ _ => destruct b
  | |- wp _ _ _ (match ?x with _ => _ end) _ _ => destruct x
  | |- wp _ _ _ (ret _) _ _ => apply wp_ret; finish_post
  | |- wp _ _ _ (throw _) _ _ => exact I
  | |- wp _ _ _ _ _ _ => eapply wp_tail; [finish_call | finish_post]
  end.

Ltac finish := finish_post; cbv zeta; repeat finish_step.

(** ** Expressions *)

Definition expressions_finish (fuel : nat) : Prop :=
  (forall off, 5 + 16 * (size - off) <= fuel ->
     finishes (parse_expression tokens fuel) (advanced off) off)
  /\ (forall p off, 4 + 16 * (size - off) <= fuel ->
     finishes (parse_binary_expression tokens fuel p) (advanced off) off)
  /\ (forall p lhs off, 1 + 16 * (size - off) <= fuel ->
     finishes (parse_binary_expression_loop tokens fuel p lhs)
       (not_behind off) off)
  /\ (forall off, 3 + 16 * (size - off) <= fuel ->
     finishes (parse_unary_expression tokens fuel) (advanced off) off)
  /\ (forall off, 2 + 16 * (size - off) <= fuel ->
     finishes (parse_postfix_expression tokens fuel) (advanced off) off)
  /\ (forall base off, 1 + 16 * (size - off) <= fuel ->
     finishes (parse_postfix_expression_loop tokens fuel base)
       (not_behind off) off)
  /\ (forall off, 7 + 16 * (size - off) <= fuel ->
     finishes (parse_function_call_expression tokens fuel) (advanced off) off)
  /\ (forall args off, 6 + 16 * (size - off) <= fuel ->
     finishes (parse_function_call_expression_loop tokens fuel args)
       (advanced off) off)
  /\ (forall off, 6 + 16 * (size - off) <= fuel ->
     finishes (parse_subscript_expression tokens fuel) (advanced off) off)
  /\ (forall off, 1 + 16 * (size - off) <= fuel ->
     finishes (parse_primary_expression tokens fuel) (advanced off) off)
  /\ (forall off, 6 + 16 * (size - off) <= fuel ->
     finishes (parse_parenthesized_expression tokens fuel) (advanced off)
       off).

Lemma expressions_finish_all : forall fuel, expressions_finish fuel.
Proof.
  induction fuel as [|fuel IH]; unfold expressions_finish.
  - repeat split; intros; lia.
  - destruct IH as
      (Hexpr & Hbin & Hbinl & Hun & Hpost & Hpostl & Hcall & Hcalll
       & Hsub & Hprim & Hparen).
    repeat split; intros; simpl.
    + finish.
    + finish.
    + finish.
    + finish.
    + finish.
    + finish.
    + finish.
    + finish.
    + finish.
    + finish.
    + finish.
Qed.

Lemma parse_expression_finishes fuel off :
  5 + 16 * (size - off) <= fuel ->
  finishes (parse_expression tokens fuel) (advanced off) off.
Proof. exact (proj1 (expressions_finish_all fuel) off). Qed.

(** ** Declarators and variable declarations *)

Lemma parse_declarator_finishes off :
  finishes (parse_declarator tokens) (advanced off) off.
Proof. unfold parse_declarator. finish. Qed.

Lemma parse_init_declarator_finishes fuel off :
  16 * (size - off) <= fuel ->
  finishes (parse_init_declarator tokens fuel) (advanced off) off.
Proof.
  intros Hf. unfold parse_init_declarator.
  pose proof parse_declarator_finishes.
  pose proof (parse_expression_finishes fuel).
  finish.
Qed.

Lemma parse_parameter_declaration_finishes fuel off :
  16 * (size - off) <= fuel ->
  finishes (parse_parameter_declaration tokens order fuel) (advanced off) off.
Proof.
  intros Hf. unfold parse_parameter_declaration.
  pose proof (parse_init_declarator_finishes fuel).
  finish.
Qed.

Lemma parse_var_declaration_loop_finishes : forall fuel l off,
  1 + 16 * (size - off) <= fuel ->
  finishes (parse_var_declaration_loop tokens fuel l) (advanced off) off.
Proof.
  induction fuel as [|fuel IH]; intros l off Hf; [lia|]. simpl.
  pose proof (parse_init_declarator_finishes fuel).
  finish.
Qed.

Lemma parse_var_declaration_finishes fuel off :
  16 * (size - off) <= fuel ->
  finishes (parse_var_declaration tokens fuel) (advanced off) off.
Proof.
  intros Hf. unfold parse_var_declaration.
  pose proof (parse_var_declaration_loop_finishes fuel).
  finish.
Qed.

(** ** Statements *)

Lemma parse_jump_statement_finishes fuel off :
  16 * (size - off) <= fuel ->
  finishes (parse_jump_statement tokens fuel) (advanced off) off.
Proof.
  intros Hf.
  unfold parse_jump_statement, parse_break_statement,
    parse_continue_statement, parse_return_statement.
  pose proof (parse_expression_finishes fuel).
  finish.
Qed.

Lemma parse_declaration_statement_finishes fuel off :
  16 * (size - off) <= fuel ->
  finishes (parse_declaration_statement tokens fuel) (advanced off) off.
Proof.
  intros Hf. unfold parse_declaration_statement.
  pose proof (parse_var_declaration_finishes fuel).
  finish.
Qed.

Lemma parse_expression_statement_finishes fuel off :
  5 + 16 * (size - off) <= fuel ->
  finishes (parse_expression_statement tokens fuel) (advanced off) off.
Proof.
  intros Hf. unfold parse_expression_statement.
  pose proof (parse_expression_finishes fuel).
  finish.
Qed.

Definition statements_finish (fuel : nat) : Prop :=
  (forall off, 6 + 16 * (size - off) <= fuel ->
     finishes (parse_statement tokens fuel) (advanced off) off)
  /\ (forall off, 8 + 16 * (size - off) <= fuel ->
     finishes (parse_compound_statement tokens fuel) (advanced off) off)
  /\ (forall l off, 7 + 16 * (size - off) <= fuel ->
     finishes (parse_compound_statement_loop tokens fuel l) (advanced off)
       off)
  /\ (forall off, 1 + 16 * (size - off) <= fuel ->
     finishes (parse_conditional_statement tokens fuel) (advanced off) off)
  /\ (forall l off, 1 + 16 * (size - off) <= fuel ->
     finishes (parse_conditional_statement_loop tokens fuel l)
       (not_behind off) off)
  /\ (forall off, 1 + 16 * (size - off) <= fuel ->
     finishes (parse_loop_statement tokens fuel) (advanced off) off)
  /\ (forall off, 1 + 16 * (size - off) <= fuel ->
     finishes (parse_while_statement tokens fuel) (advanced off) off)
  /\ (forall off, 7 + 16 * (size - off) <= fuel ->
     finishes (parse_repeat_statement tokens fuel) (advanced off) off).

Lemma statements_finish_all : forall fuel, statements_finish fuel.
Proof.
  induction fuel as [|fuel IH]; unfold statements_finish.
  - repeat split; intros; lia.
  - destruct IH as (Hst & Hcomp & Hcompl & Hcond & Hcondl & Hloop & Hwhile
                    & Hrep).
    pose proof (parse_expression_finishes fuel).
    pose proof (parse_jump_statement_finishes fuel).
    pose proof (parse_declaration_statement_finishes fuel).
    pose proof (parse_expression_statement_finishes fuel).
    repeat split; intros; simpl; unfold parse_for_statement; finish.
Qed.

Lemma parse_compound_statement_finishes fuel off :
  8 + 16 * (size - off) <= fuel ->
  finishes (parse_compound_statement tokens fuel) (advanced off) off.
Proof. exact (proj1 (proj2 (statements_finish_all fuel)) off). Qed.

(** ** Declarations and the driver *)

Lemma parse_function_declaration_loop_finishes : forall fuel args off,
  1 + 16 * (size - off) <= fuel ->
  finishes (parse_function_declaration_loop tokens order fuel args) (advanced off)
    off.
Proof.
  induction fuel as [|fuel IH]; intros args off Hf; [lia|]. simpl.
  pose proof (parse_parameter_declaration_finishes fuel).
  finish.
Qed.

Lemma parse_function_declaration_finishes fuel off :
  16 * (size - off) <= fuel ->
  finishes (parse_function_declaration tokens order fuel) (advanced off) off.
Proof.
  intros Hf. unfold parse_function_declaration.
  pose proof parse_declarator_finishes.
  pose proof (parse_function_declaration_loop_finishes fuel).
  pose proof (parse_compound_statement_finishes fuel).
  finish.
Qed.

Lemma parse_declaration_finishes fuel off :
  16 * (size - off) <= fuel ->
  finishes (parse_declaration tokens order fuel) (advanced off) off.
Proof.
  intros Hf. unfold parse_declaration.
  pose proof (parse_function_declaration_finishes fuel).
  pose proof (parse_var_declaration_finishes fuel).
  finish.
Qed.

Lemma parse_loop_finishes : forall fuel l off,
  1 + 16 * (size - off) <= fuel ->
  finishes (parse_loop tokens order fuel l) (fun _ _ => True) off.
Proof.
  induction fuel as [|fuel IH]; intros l off Hf; [lia|]. simpl.
  pose proof (parse_declaration_finishes fuel).
  finish; auto.
Qed.

(** [parse] does not stop for lack of fuel once it has sixteen units for
    each token and one more. *)
Lemma parse_finishes fuel :
  1 + 16 * size <= fuel -> parse tokens order fuel 0 <> OutOfFuel.
Proof.
  intros Hf Hrun.
  pose proof (parse_loop_finishes fuel [] 0 ltac:(lia)) as H.
  unfold wp in H. unfold parse in Hrun. rewrite Hrun in H. exact H.
Qed.

End Termination.

(** * Properties of the parser *)

(** ** Function calls *)

(** C1 (the code departs from it): a call with two arguments separated by
    one comma, [f(a, b)], is not parsed; [match_token] has consumed the
    comma when [extract_token] asks for a comma again, so the parser throws
    at [b].  A call without arguments, [f()], is thrown at the token after
    the closing parenthesis in the same way.  What the code takes is two
    commas between arguments, [f(a,, b)]. *)
Theorem function_call_single_comma_rejected (fuel : nat) :
  parse_expression call_two_tokens (20 + fuel) 0
    = Throw "Unexpected token b" 4
  /\ parse_expression call_none_tokens (20 + fuel) 0
    = Throw "Unexpected token ;" 3
  /\ parse_expression call_double_comma_tokens (20 + fuel) 0
    = Ok (FunctionCallExpression (IdentifierExpression "f")
            [IdentifierExpression "a"; IdentifierExpression "b"]) 7.
Proof. repeat split; vm_compute; reflexivity. Qed.

(** ** Precedence and grouping *)

(** C4: every operator of the precedence table groups to the right: for
    [1 op 2 op 3 ;] the expression parser returns
    [BinaryOperation op 1 (BinaryOperation op 2 3)], whatever the type tag
    of the operator tokens, as long as it does not start a postfix. *)
Theorem binary_operators_group_right
  (op : string) (ty : TokenType) (fuel : nat) :
  In op (map fst operator_precedences) ->
  mentions ty [INCREMENT; DECREMENT; LPAREN; LBRACKET] = false ->
  parse_expression (chain_tokens ty op) (20 + fuel) 0
    = Ok (BinaryOperation op (IntLiteral "1")
            (BinaryOperation op (IntLiteral "2") (IntLiteral "3"))) 5.
Proof.
  intros Hop Hty. simpl in Hop.
  repeat (destruct Hop as [<-|Hop]); try contradiction;
    destruct ty; try discriminate Hty; vm_compute; reflexivity.
Qed.

Lemma binary_operators_group_right_witness :
  parse_expression (chain_tokens (OTHER "MINUS") "-") 20 0
    = Ok (BinaryOperation "-" (IntLiteral "1")
            (BinaryOperation "-" (IntLiteral "2") (IntLiteral "3"))) 5.
Proof.
  apply (binary_operators_group_right "-" (OTHER "MINUS") 0).
  - simpl. do 16 right. left. reflexivity.
  - reflexivity.
Defined.

(** C5: the table puts the multiplicative operators (6) above the additive
    ones (5), and [1 + 2 * 3 ;] is parsed with the product as the right
    operand of the sum. *)
Theorem multiplicative_binds_tighter (fuel : nat) :
  map (lookup operator_precedences) ["+"; "-"] = [Some 5%Z; Some 5%Z]
  /\ map (lookup operator_precedences) ["*"; "/"; "%"]
       = [Some 6%Z; Some 6%Z; Some 6%Z]
  /\ parse_expression sum_product_tokens (20 + fuel) 0
       = Ok (BinaryOperation "+" (IntLiteral "1")
               (BinaryOperation "*" (IntLiteral "2") (IntLiteral "3"))) 5.
Proof. repeat split; vm_compute; reflexivity. Qed.

(** ** The [for] statement *)

(** C7: at a [for] token, [parse_statement] (and [parse_loop_statement],
    which it calls) consumes that token and nothing more, and returns the
    childless [ForStatement]: the cursor is left on the token that follows
    the keyword. *)
Theorem for_statement_consumes_keyword_only
  (tokens : list Token) (fuel off : nat) (v : string) :
  nth_error tokens off = Some (mkToken FOR v) ->
  parse_statement tokens (S (S fuel)) off = Ok ForStatement (S off)
  /\ parse_loop_statement tokens (S fuel) off = Ok ForStatement (S off).
Proof.
  intros H.
  assert (Hloop : parse_loop_statement tokens (S fuel) off
                  = Ok ForStatement (S off)).
  { simpl. unfold bind.
    rewrite (match_token_at _ [WHILE] _ _ H). simpl.
    rewrite (match_token_at _ [FOR] _ _ H). reflexivity. }
  split; [|exact Hloop].
  simpl. unfold bind.
  rewrite (match_token_at _ [LBRACE] _ _ H). simpl.
  rewrite (match_token_at _ [IF] _ _ H). simpl.
  rewrite (check_token_at _ [WHILE; FOR; REPEAT] _ _ H). simpl.
  rewrite (match_token_at _ [WHILE] _ _ H). simpl.
  rewrite (match_token_at _ [FOR] _ _ H). reflexivity.
Qed.

Lemma for_statement_consumes_keyword_only_witness :
  parse_statement [mkToken FOR "for"; tok_lparen; tok_end] 2 0
    = Ok ForStatement 1
  /\ parse_loop_statement [mkToken FOR "for"; tok_lparen; tok_end] 1 0
    = Ok ForStatement 1.
Proof.
  apply (for_statement_consumes_keyword_only _ 0 0 "for"). reflexivity.
Defined.

(** ** The cursor *)

(** C8: at a cursor on a token, [match_token] returns [true] one position
    further when the token's type is among the expected ones, and [false]
    at the same position otherwise; [match_pattern] returns at the position
    it started from, and does return when the expected types fit in what
    is left of the vector. *)
Theorem match_token_and_match_pattern_frame
  (tokens : list Token) (expected : list TokenType) (off : nat) (tk : Token) :
  nth_error tokens off = Some tk ->
  match_token tokens expected off
    = (if mentions (type tk) expected then Ok true (S off)
       else Ok false off)
  /\ (match_pattern tokens expected off = OutOfRange
      \/ exists b, match_pattern tokens expected off = Ok b off)
  /\ (off + List.length expected <= List.length tokens ->
      exists b, match_pattern tokens expected off = Ok b off).
Proof.
  intros H. split; [exact (match_token_at _ _ _ _ H)|]. split.
  - exact (match_pattern_from_frame tokens expected off off).
  - intros Hlen.
    exact (match_pattern_from_in_range tokens expected off off Hlen).
Qed.

Lemma match_token_and_match_pattern_frame_witness :
  match_token unterminated_tokens [TYPE] 0 = Ok true 1
  /\ match_token unterminated_tokens [IDENTIFIER; LPAREN] 0 = Ok false 0
  /\ exists b, match_pattern unterminated_tokens [TYPE; IDENTIFIER] 0
                = Ok b 0.
Proof.
  split; [|split].
  - exact (proj1 (match_token_and_match_pattern_frame
                    unterminated_tokens [TYPE] 0 (tok_type "int") eq_refl)).
  - exact (proj1 (match_token_and_match_pattern_frame
                    unterminated_tokens [IDENTIFIER; LPAREN] 0
                    (tok_type "int") eq_refl)).
  - apply (match_token_and_match_pattern_frame
             unterminated_tokens [TYPE; IDENTIFIER] 0 (tok_type "int")
             eq_refl).
    simpl. lia.
Defined.

(** ** The driver *)

(** C10: on the vector that holds only the end token, [parse] returns the
    empty translation unit, with the cursor one past that token. *)
Theorem parse_end_only (v : string) (order : EvaluationOrder) (fuel : nat) :
  run_parse [mkToken END v] order (S fuel) = Ok (mkTranslationUnit []) 1.
Proof. reflexivity. Qed.

(** ** Parameter lists *)






(** ** Errors *)

(** C3, as the claim has it, fails in either order of evaluation: on
    [int f(int x;] (on [int f(x int;] when the declarator is read first)
    the parser throws at the token [;] with a message that does not carry
    that text. *)
Lemma missing_parenthesis_error_without_text :
  (run_parse (unclosed_parameter_tokens LeftToRight) LeftToRight 20
     = Throw "Missing closing parenthesis" 5
   /\ nth_error (unclosed_parameter_tokens LeftToRight) 5
      = Some tok_semicolon
   /\ ~ carries_token_text (unclosed_parameter_tokens LeftToRight)
         "Missing closing parenthesis" 5)
  /\ (run_parse (unclosed_parameter_tokens RightToLeft) RightToLeft 20
        = Throw "Missing closing parenthesis" 5
      /\ nth_error (unclosed_parameter_tokens RightToLeft) 5
         = Some tok_semicolon
      /\ ~ carries_token_text (unclosed_parameter_tokens RightToLeft)
            "Missing closing parenthesis" 5).
Proof.
  split; (split; [vm_compute; reflexivity|]); (split; [reflexivity|]);
    intros (tk & Htk & Hwhat); simpl in Htk; injection Htk as <-;
    discriminate Hwhat.
Qed.

(** C3, amended: when [parse] throws, the message is ["Unexpected token "]
    followed by the text of the token at the cursor, or it is
    ["Missing closing parenthesis"], and then the cursor is just after a
    parameter of a function declaration, on a token whose text is neither
    [","] nor [")"]; the throw with the bare message ["Unexpected token"],
    after a parameter list followed by neither a body nor a terminator, is
    left aside.  This holds in either order of evaluation. *)
Theorem parse_error_message
  (tokens : list Token) (order : EvaluationOrder) (fuel : nat)
  (what : string) (off : nat) :
  run_parse tokens order fuel = Throw what off ->
  what <> "Unexpected token" ->
  carries_token_text tokens what off
  \/ (what = "Missing closing parenthesis"
      /\ after_parameter tokens order off).
Proof.
  intros Hrun Hbare.
  assert (Hwp : wp
    (fun what off => what <> "Unexpected token" ->
       carries_token_text tokens what off
       \/ (what = "Missing closing parenthesis"
           /\ after_parameter tokens order off))
    True True (parse tokens order fuel) (fun _ _ => True) 0).
  { apply (wp_parse tokens order _ True True (fun _ => True) I); auto.
    - intros o tk Htk _. left. exists tk. auto.
    - intros f o p o' tk Hp Htk Hc Hcl _. right. split; [reflexivity|].
      exists tk. split; [exact Htk|].
      split; [apply String.eqb_neq, Hc|].
      split; [apply String.eqb_neq, Hcl|].
      exists f, o, p. exact Hp.
    - intros o Hne. contradiction. }
  unfold wp, run_parse in *. rewrite Hrun in Hwp. exact (Hwp Hbare).
Qed.

Lemma parse_error_message_witness :
  carries_token_text unterminated_tokens "Unexpected token EOF" 2
  \/ ("Unexpected token EOF" = "Missing closing parenthesis"
      /\ after_parameter unterminated_tokens RightToLeft 2).
Proof.
  apply (parse_error_message unterminated_tokens RightToLeft 20).
  - vm_compute. reflexivity.
  - discriminate.
Defined.

(** ** Accesses to the token vector *)

(** C6, as the claim has it, fails in either order of evaluation: the last
    token has type [END] and a text, [")"], that is in neither operator
    table; the parameter list takes it for its closing parenthesis and the
    next access is past it. *)
Lemma paren_sentinel_read_past :
  type (mkToken END ")") = END
  /\ lookup operator_precedences (value (mkToken END ")")) = None
  /\ contains unary_operators (value (mkToken END ")")) = false
  /\ (List.length (paren_sentinel_tokens LeftToRight) = 6
      /\ run_parse (paren_sentinel_tokens LeftToRight) LeftToRight 20
         = OutOfRange)
  /\ (List.length (paren_sentinel_tokens RightToLeft) = 6
      /\ run_parse (paren_sentinel_tokens RightToLeft) RightToLeft 20
         = OutOfRange).
Proof. repeat split; vm_compute; reflexivity. Qed.

Lemma advancing_text_false (v : string) :
  lookup operator_precedences v = None ->
  contains unary_operators v = false ->
  v <> "," -> v <> ")" ->
  advancing_text v = false.
Proof.
  intros Hl Hu Hc Hp. unfold advancing_text. rewrite Hl, Hu.
  apply String.eqb_neq in Hc, Hp. rewrite Hc, Hp. reflexivity.
Qed.

Lemma nth_error_before_last (body : list Token) (eof tk : Token) (off : nat) :
  off < List.length (body ++ [eof]) ->
  nth_error (body ++ [eof]) off = Some tk ->
  tk <> eof ->
  S off < List.length (body ++ [eof]).
Proof.
  rewrite length_app. simpl. intros Hlt Hnth Hne.
  destruct (Nat.eq_dec off (List.length body)) as [->|Hoff]; [|lia].
  rewrite nth_error_app2 in Hnth by lia.
  rewrite Nat.sub_diag in Hnth. simpl in Hnth. congruence.
Qed.

(** C6, amended: when the last token has type [END] and a text that is in
    neither operator table and is neither [","] nor [")"], no run of
    [parse] indexes the vector out of range, in either order of
    evaluation; and with sixteen units of fuel for each token and one more
    the run is not cut short, so that [parse] returns or throws without
    having left the vector. *)
Theorem parse_stays_in_range
  (body : list Token) (eof : Token) (order : EvaluationOrder) :
  type eof = END ->
  lookup operator_precedences (value eof) = None ->
  contains unary_operators (value eof) = false ->
  value eof <> "," ->
  value eof <> ")" ->
  (forall fuel, run_parse (body ++ [eof]) order fuel <> OutOfRange)
  /\ (forall fuel, 1 + 16 * List.length (body ++ [eof]) <= fuel ->
        run_parse (body ++ [eof]) order fuel <> OutOfFuel).
Proof.
  intros Hty Hl Hu Hc Hp. split; [|intros fuel; apply parse_finishes].
  intros fuel.
  pose proof (advancing_text_false _ Hl Hu Hc Hp) as Hadv.
  assert (Hrun : wp (fun _ _ => True) False True
                   (parse (body ++ [eof]) order fuel)
                   (fun _ _ => True) 0).
  { apply (wp_parse (body ++ [eof]) order (fun _ _ => True) False True
             (fun off => off < List.length (body ++ [eof])) I); auto.
    - intros off tk Hlt Hnth Hne.
      apply nth_error_before_last with tk; auto. congruence.
    - intros off tk Hlt Hnth Ht.
      apply nth_error_before_last with tk; auto. congruence.
    - intros off Hlt Hnth. apply nth_error_None in Hnth. lia.
    - rewrite length_app. simpl. lia. }
  unfold wp, run_parse in *. intros Hoor. rewrite Hoor in Hrun. exact Hrun.
Qed.

Lemma parse_stays_in_range_witness :
  run_parse (paren_sentinel_body ++ [tok_end]) RightToLeft 97 <> OutOfRange
  /\ run_parse (paren_sentinel_body ++ [tok_end]) RightToLeft 97
     <> OutOfFuel.
Proof.
  destruct (parse_stays_in_range paren_sentinel_body tok_end RightToLeft)
    as [Hrange Hfuel]; try reflexivity; try discriminate.
  split; [apply Hrange | apply Hfuel; simpl; lia].
Defined.

(** * More fuel, same run *)

(** A run that is not cut short does not depend on its fuel: with more
    fuel every parser function gives the same outcome. *)

Section Fuel.

Variable tokens : list Token.
Variable order : EvaluationOrder.

(** [m'] does what [m] does, wherever [m] is not cut short. *)
Definition refines {A} (m m' : M A) : Prop :=
  forall off, m off = OutOfFuel \/ m off = m' off.

Lemma refines_refl {A} (m : M A) : refines m m.
Proof. intros off. right. reflexivity. Qed.

Lemma refines_out_of_fuel {A} (m : M A) : refines out_of_fuel m.
Proof. intros off. left. reflexivity. Qed.

Lemma refines_bind {A C} (m m' : M A) (f f' : A -> M C) :
  refines m m' -> (forall a, refines (f a) (f' a)) ->
  refines (bind m f) (bind m' f').
Proof.
  intros Hm Hf off. unfold bind.
  destruct (Hm off) as [Hoof|Heq].
  - left. rewrite Hoof. reflexivity.
  - rewrite <- Heq. destruct (m off) as [a off'| | |];
      [exact (Hf a off') | right; reflexivity ..].
Qed.

Ltac refines_auto :=
  cbv zeta;
  repeat first
    [ apply refines_out_of_fuel
    | match goal with
      | H : forall _, _ <= _ -> _ |- _ => solve [apply H; lia]
      | H : forall _, refines _ _ |- _ => solve [apply H]
      | H : forall _ _, refines _ _ |- _ => solve [apply H]
      | H : refines _ _ |- _ => exact H
      | |- refines (if ?b then _ else _) _ => destruct b
      | |- refines (match ?x with _ => _ end) _ => destruct x
      end
    | apply refines_bind; [| intros ?]
    | apply refines_refl ].

Definition expressions_monotone (fuel : nat) : Prop :=
  forall fuel', fuel <= fuel' ->
  refines (parse_expression tokens fuel) (parse_expression tokens fuel')
  /\ (forall p, refines (parse_binary_expression tokens fuel p)
                  (parse_binary_expression tokens fuel' p))
  /\ (forall p lhs, refines (parse_binary_expression_loop tokens fuel p lhs)
                      (parse_binary_expression_loop tokens fuel' p lhs))
  /\ refines (parse_unary_expression tokens fuel)
       (parse_unary_expression tokens fuel')
  /\ refines (parse_postfix_expression tokens fuel)
       (parse_postfix_expression tokens fuel')
  /\ (forall base, refines (parse_postfix_expression_loop tokens fuel base)
                     (parse_postfix_expression_loop tokens fuel' base))
  /\ refines (parse_function_call_expression tokens fuel)
       (parse_function_call_expression tokens fuel')
  /\ (forall args,
        refines (parse_function_call_expression_loop tokens fuel args)
          (parse_function_call_expression_loop tokens fuel' args))
  /\ refines (parse_subscript_expression tokens fuel)
       (parse_subscript_expression tokens fuel')
  /\ refines (parse_primary_expression tokens fuel)
       (parse_primary_expression tokens fuel')
  /\ refines (parse_parenthesized_expression tokens fuel)
       (parse_parenthesized_expression tokens fuel').

Lemma expressions_monotone_all : forall fuel, expressions_monotone fuel.
Proof.
  induction fuel as [|fuel IH]; intros fuel' Hle.
  - repeat split; intros; apply refines_out_of_fuel.
  - destruct fuel' as [|fuel']; [lia|].
    destruct (IH fuel' ltac:(lia)) as
      (Hexpr & Hbin & Hbinl & Hun & Hpost & Hpostl & Hcall & Hcalll
       & Hsub & Hprim & Hparen).
    clear IH.
    repeat split; intros; simpl; refines_auto.
Qed.

Lemma parse_expression_monotone fuel fuel' :
  fuel <= fuel' ->
  refines (parse_expression tokens fuel) (parse_expression tokens fuel').
Proof. intros H. exact (proj1 (expressions_monotone_all fuel fuel' H)). Qed.

Lemma parse_init_declarator_monotone fuel fuel' :
  fuel <= fuel' ->
  refines (parse_init_declarator tokens fuel)
    (parse_init_declarator tokens fuel').
Proof.
  intros H. pose proof (parse_expression_monotone fuel fuel' H).
  unfold parse_init_declarator. refines_auto.
Qed.

Lemma parse_parameter_declaration_monotone fuel fuel' :
  fuel <= fuel' ->
  refines (parse_parameter_declaration tokens order fuel)
    (parse_parameter_declaration tokens order fuel').
Proof.
  intros H. pose proof (parse_init_declarator_monotone fuel fuel' H).
  unfold parse_parameter_declaration. refines_auto.
Qed.

Lemma parse_var_declaration_loop_monotone : forall fuel fuel' l,
  fuel <= fuel' ->
  refines (parse_var_declaration_loop tokens fuel l)
    (parse_var_declaration_loop tokens fuel' l).
Proof.
  induction fuel as [|fuel IH]; intros fuel' l Hle.
  - apply refines_out_of_fuel.
  - destruct fuel' as [|fuel']; [lia|].
    pose proof (parse_init_declarator_monotone fuel fuel' ltac:(lia)).
    pose proof (fun l => IH fuel' l ltac:(lia)) as IH'. clear IH.
    simpl. refines_auto.
Qed.

Lemma parse_var_declaration_monotone fuel fuel' :
  fuel <= fuel' ->
  refines (parse_var_declaration tokens fuel)
    (parse_var_declaration tokens fuel').
Proof.
  intros H.
  pose proof (fun l => parse_var_declaration_loop_monotone fuel fuel' l H).
  unfold parse_var_declaration. refines_auto.
Qed.

Lemma parse_jump_statement_monotone fuel fuel' :
  fuel <= fuel' ->
  refines (parse_jump_statement tokens fuel)
    (parse_jump_statement tokens fuel').
Proof.
  intros H. pose proof (parse_expression_monotone fuel fuel' H).
  unfold parse_jump_statement, parse_return_statement. refines_auto.
Qed.

Lemma parse_declaration_statement_monotone fuel fuel' :
  fuel <= fuel' ->
  refines (parse_declaration_statement tokens fuel)
    (parse_declaration_statement tokens fuel').
Proof.
  intros H. pose proof (parse_var_declaration_monotone fuel fuel' H).
  unfold parse_declaration_statement. refines_auto.
Qed.

Lemma parse_expression_statement_monotone fuel fuel' :
  fuel <= fuel' ->
  refines (parse_expression_statement tokens fuel)
    (parse_expression_statement tokens fuel').
Proof.
  intros H. pose proof (parse_expression_monotone fuel fuel' H).
  unfold parse_expression_statement. refines_auto.
Qed.

Definition statements_monotone (fuel : nat) : Prop :=
  forall fuel', fuel <= fuel' ->
  refines (parse_statement tokens fuel) (parse_statement tokens fuel')
  /\ refines (parse_compound_statement tokens fuel)
       (parse_compound_statement tokens fuel')
  /\ (forall l, refines (parse_compound_statement_loop tokens fuel l)
                  (parse_compound_statement_loop tokens fuel' l))
  /\ refines (parse_conditional_statement tokens fuel)
       (parse_conditional_statement tokens fuel')
  /\ (forall l, refines (parse_conditional_statement_loop tokens fuel l)
                  (parse_conditional_statement_loop tokens fuel' l))
  /\ refines (parse_loop_statement tokens fuel)
       (parse_loop_statement tokens fuel')
  /\ refines (parse_while_statement tokens fuel)
       (parse_while_statement tokens fuel')
  /\ refines (parse_repeat_statement tokens fuel)
       (parse_repeat_statement tokens fuel').

Lemma statements_monotone_all : forall fuel, statements_monotone fuel.
Proof.
  induction fuel as [|fuel IH]; intros fuel' Hle.
  - repeat split; intros; apply refines_out_of_fuel.
  - destruct fuel' as [|fuel']; [lia|].
    destruct (IH fuel' ltac:(lia)) as
      (Hst & Hcomp & Hcompl & Hcond & Hcondl & Hloop & Hwhile & Hrep).
    clear IH.
    pose proof (parse_expression_monotone fuel fuel' ltac:(lia)).
    pose proof (parse_jump_statement_monotone fuel fuel' ltac:(lia)).
    pose proof (parse_declaration_statement_monotone fuel fuel' ltac:(lia)).
    pose proof (parse_expression_statement_monotone fuel fuel' ltac:(lia)).
    repeat split; intros; simpl; refines_auto.
Qed.

Lemma parse_statement_monotone fuel fuel' :
  fuel <= fuel' ->
  refines (parse_statement tokens fuel) (parse_statement tokens fuel').
Proof. intros H. exact (proj1 (statements_monotone_all fuel fuel' H)). Qed.

Lemma parse_compound_statement_monotone fuel fuel' :
  fuel <= fuel' ->
  refines (parse_compound_statement tokens fuel)
    (parse_compound_statement tokens fuel').
Proof.
  intros H. exact (proj1 (proj2 (statements_monotone_all fuel fuel' H))).
Qed.

Lemma parse_function_declaration_loop_monotone : forall fuel fuel' args,
  fuel <= fuel' ->
  refines (parse_function_declaration_loop tokens order fuel args)
    (parse_function_declaration_loop tokens order fuel' args).
Proof.
  induction fuel as [|fuel IH]; intros fuel' args Hle.
  - apply refines_out_of_fuel.
  - destruct fuel' as [|fuel']; [lia|].
    pose proof (parse_parameter_declaration_monotone fuel fuel' ltac:(lia)).
    pose proof (fun l => IH fuel' l ltac:(lia)) as IH'. clear IH.
    simpl. refines_auto.
Qed.

Lemma parse_function_declaration_monotone fuel fuel' :
  fuel <= fuel' ->
  refines (parse_function_declaration tokens order fuel)
    (parse_function_declaration tokens order fuel').
Proof.
  intros H.
  pose proof (fun l =>
                parse_function_declaration_loop_monotone fuel fuel' l H).
  pose proof (parse_compound_statement_monotone fuel fuel' H).
  unfold parse_function_declaration. refines_auto.
Qed.

Lemma parse_declaration_monotone fuel fuel' :
  fuel <= fuel' ->
  refines (parse_declaration tokens order fuel) (parse_declaration tokens order fuel').
Proof.
  intros H.
  pose proof (parse_function_declaration_monotone fuel fuel' H).
  pose proof (parse_var_declaration_monotone fuel fuel' H).
  unfold parse_declaration. refines_auto.
Qed.

Lemma parse_loop_monotone : forall fuel fuel' l,
  fuel <= fuel' ->
  refines (parse_loop tokens order fuel l) (parse_loop tokens order fuel' l).
Proof.
  induction fuel as [|fuel IH]; intros fuel' l Hle.
  - apply refines_out_of_fuel.
  - destruct fuel' as [|fuel']; [lia|].
    pose proof (parse_declaration_monotone fuel fuel' ltac:(lia)).
    pose proof (fun l => IH fuel' l ltac:(lia)) as IH'. clear IH.
    simpl. refines_auto.
Qed.

Lemma parse_monotone fuel fuel' :
  fuel <= fuel' -> refines (parse tokens order fuel) (parse tokens order fuel').
Proof. intros H. apply parse_loop_monotone. exact H. Qed.

End Fuel.

(** * Running the parser on known tokens *)

Section Run.

Variable tokens : list Token.

Lemma match_pattern_from_nil i off :
  match_pattern_from tokens i [] off = Ok true off.
Proof. reflexivity. Qed.

Lemma match_pattern_from_cons i e rest off tk :
  nth_error tokens i = Some tk ->
  match_pattern_from tokens i (e :: rest) off
    = if TokenType_eqb (type tk) e
      then match_pattern_from tokens (S i) rest off
      else Ok false off.
Proof.
  intros H.
  change (match_pattern_from tokens i (e :: rest) off)
    with (bind (token_at tokens i)
            (fun tk => if TokenType_eqb (type tk) e
                       then match_pattern_from tokens (S i) rest
                       else ret false) off).
  unfold bind, token_at. rewrite H.
  destruct (TokenType_eqb (type tk) e); reflexivity.
Qed.

Lemma match_pattern_from_none i e rest off :
  nth_error tokens i = None ->
  match_pattern_from tokens i (e :: rest) off = OutOfRange.
Proof.
  intros H.
  change (match_pattern_from tokens i (e :: rest) off)
    with (bind (token_at tokens i)
            (fun tk => if TokenType_eqb (type tk) e
                       then match_pattern_from tokens (S i) rest
                       else ret false) off).
  unfold bind, token_at. rewrite H. reflexivity.
Qed.

End Run.

(** One step of a run: a cursor primitive at a token that a hypothesis
    gives, then the [match] on its outcome. *)
Ltac run_step :=
  match goal with
  | H : nth_error ?toks ?off = Some ?tk
    |- context [match_token ?toks ?exp ?off] =>
      rewrite (match_token_at toks exp off tk H)
  | H : nth_error ?toks ?off = Some ?tk
    |- context [check_token ?toks ?exp ?off] =>
      rewrite (check_token_at toks exp off tk H)
  | H : nth_error ?toks ?off = Some ?tk
    |- context [extract_token ?toks ?exp ?off] =>
      rewrite (extract_token_at toks exp off tk H)
  | H : nth_error ?toks ?off = Some ?tk
    |- context [current ?toks ?off] =>
      rewrite (current_at toks off tk H)
  | H : nth_error ?toks ?i = Some ?tk
    |- context [match_pattern_from ?toks ?i (?e :: ?rest) ?off] =>
      rewrite (match_pattern_from_cons toks i e rest off tk H)
  | H : nth_error ?toks ?i = None
    |- context [match_pattern_from ?toks ?i (?e :: ?rest) ?off] =>
      rewrite (match_pattern_from_none toks i e rest off H)
  | |- context [match_pattern_from ?toks ?i [] ?off] =>
      rewrite (match_pattern_from_nil toks i off)
  | H : ?a = _ |- context [match ?a with _ => _ end] => rewrite H
  | H : ?a = _ |- context [if ?a then _ else _] => rewrite H
  end.

Ltac run_unfold :=
  progress unfold parse_declaration, parse_function_declaration,
    parse_var_declaration, parse_parameter_declaration,
    parse_init_declarator, parse_declarator, parse_jump_statement,
    parse_break_statement, parse_continue_statement,
    parse_return_statement, parse_declaration_statement,
    parse_expression_statement, parse_for_statement, match_pattern,
    bind, get_offset, incr_offset, ret, throw.

Ltac run := simpl; repeat (first [run_step | run_unfold]; simpl).

(** * Further properties *)

(** ** Declarations *)

(** X9: a type, an identifier, [(], [)] and [;] are a function prototype:
    no parameters and no body, whatever the texts of the five tokens and
    wherever they are in the vector. *)
Theorem prototype_declaration
  (tokens : list Token) (order : EvaluationOrder) (fuel off : nat) (t id lp rp sc : string) :
  nth_error tokens off = Some (mkToken TYPE t) ->
  nth_error tokens (S off) = Some (mkToken IDENTIFIER id) ->
  nth_error tokens (S (S off)) = Some (mkToken LPAREN lp) ->
  nth_error tokens (S (S (S off))) = Some (mkToken RPAREN rp) ->
  nth_error tokens (S (S (S (S off)))) = Some (mkToken SEMICOLON sc) ->
  parse_declaration tokens order fuel off
    = Ok (FuncDeclaration t (NoPtrDeclarator id) [] None)
         (S (S (S (S (S off))))).
Proof.
  intros H0 H1 H2 H3 H4. run. reflexivity.
Qed.

Lemma prototype_declaration_witness :
  parse_declaration
    [tok_type "void"; tok_id "main"; tok_lparen; tok_rparen; tok_semicolon;
     tok_end] RightToLeft 0 0
    = Ok (FuncDeclaration "void" (NoPtrDeclarator "main") [] None) 5.
Proof.
  apply (prototype_declaration _ RightToLeft 0 0 "void" "main" "(" ")" ";");
    reflexivity.
Defined.

(** X4: a declarator is an identifier, or a [*] token followed by an
    identifier.  Anything else, a second [*] included, is thrown with the
    text of the token at the cursor, which has not moved; and when the
    [*] is the last token of the vector the lookahead reads past it. *)
Theorem parse_declarator_cases
  (tokens : list Token) (off : nat) (tk : Token) :
  nth_error tokens off = Some tk ->
  parse_declarator tokens off
    = if TokenType_eqb (type tk) IDENTIFIER then
        Ok (NoPtrDeclarator (value tk)) (S off)
      else if TokenType_eqb (type tk) MULTIPLY then
        match nth_error tokens (S off) with
        | Some tk2 =>
            if TokenType_eqb (type tk2) IDENTIFIER then
              Ok (PtrDeclarator (value tk2)) (S (S off))
            else Throw ("Unexpected token " ++ value tk) off
        | None => OutOfRange
        end
      else Throw ("Unexpected token " ++ value tk) off.
Proof.
  intros H. destruct tk as [ty v].
  destruct ty; try (run; reflexivity).
  destruct (nth_error tokens (S off)) as [[ty2 v2]|] eqn:H2.
  - destruct ty2; run; reflexivity.
  - run. reflexivity.
Qed.

Lemma parse_declarator_cases_witness :
  parse_declarator
    [mkToken MULTIPLY "*"; mkToken MULTIPLY "*"; tok_id "p"; tok_end] 0
    = Throw "Unexpected token *" 0.
Proof.
  exact (parse_declarator_cases
           [mkToken MULTIPLY "*"; mkToken MULTIPLY "*"; tok_id "p"; tok_end]
           0 (mkToken MULTIPLY "*") eq_refl).
Defined.

(** X5: a declaration starts with a type followed by an identifier or by
    [*]: at any other token, and at a type followed by any other token,
    [parse_declaration] throws with the text of the token at the cursor
    (the type, in the second case), and the cursor has not moved. *)
Theorem parse_declaration_rejects
  (tokens : list Token) (order : EvaluationOrder) (fuel off : nat) (tk : Token) :
  nth_error tokens off = Some tk ->
  type tk <> TYPE
  \/ (exists tk2, nth_error tokens (S off) = Some tk2
                  /\ mentions (type tk2) [IDENTIFIER; MULTIPLY] = false) ->
  parse_declaration tokens order fuel off
    = Throw ("Unexpected token " ++ value tk) off.
Proof.
  intros H [Hty | (tk2 & H2 & Hty2)]; destruct tk as [ty v].
  - destruct ty; try (exfalso; apply Hty; reflexivity); run; reflexivity.
  - destruct tk2 as [ty2 v2].
    destruct ty; try (run; reflexivity).
    destruct ty2; try discriminate Hty2; run; reflexivity.
Qed.

Lemma parse_declaration_rejects_witness :
  parse_declaration [tok_type "int"; tok_semicolon; tok_end] RightToLeft 0 0
    = Throw "Unexpected token int" 0.
Proof.
  apply (parse_declaration_rejects _ RightToLeft 0 0 (tok_type "int"));
    [reflexivity|].
  right. exists tok_semicolon. split; reflexivity.
Defined.

(** X12: after the declarator of a variable declaration comes [=], [,] or
    [;]: at any other token (the end token of [int x] with the terminator
    missing, say) [parse_declaration] throws with the text of that token,
    the cursor on it. *)
Theorem variable_declaration_needs_terminator
  (tokens : list Token) (order : EvaluationOrder) (fuel off : nat) (t id : string) (tk : Token) :
  nth_error tokens off = Some (mkToken TYPE t) ->
  nth_error tokens (S off) = Some (mkToken IDENTIFIER id) ->
  nth_error tokens (S (S off)) = Some tk ->
  mentions (type tk) [LPAREN; ASSIGNMENT; COMMA; SEMICOLON] = false ->
  parse_declaration tokens order (S fuel) off
    = Throw ("Unexpected token " ++ value tk) (S (S off)).
Proof.
  intros H0 H1 H2 Hty. destruct tk as [ty v].
  destruct ty; try discriminate Hty; run; reflexivity.
Qed.

Lemma variable_declaration_needs_terminator_witness :
  parse_declaration unterminated_tokens RightToLeft 1 0
    = Throw "Unexpected token EOF" 2.
Proof.
  apply (variable_declaration_needs_terminator _ RightToLeft 0 0 "int" "x"
           tok_end);
    reflexivity.
Defined.

(** ** Statements *)

(** X6: a function declaration is not a statement: where a type, an
    identifier and [(] start a function declaration for
    [parse_declaration], [parse_statement] throws at the [(], with its
    text. *)
Theorem function_declaration_is_no_statement
  (tokens : list Token) (order : EvaluationOrder) (fuel off : nat) (t id lp : string) :
  nth_error tokens off = Some (mkToken TYPE t) ->
  nth_error tokens (S off) = Some (mkToken IDENTIFIER id) ->
  nth_error tokens (S (S off)) = Some (mkToken LPAREN lp) ->
  parse_statement tokens (S (S fuel)) off
    = Throw ("Unexpected token " ++ lp) (S (S off))
  /\ parse_declaration tokens order fuel off
     = parse_function_declaration tokens order fuel off.
Proof.
  intros H0 H1 H2. split.
  - run. reflexivity.
  - unfold parse_declaration, match_pattern, bind, get_offset, ret.
    repeat (run_step; simpl). reflexivity.
Qed.

Lemma function_declaration_is_no_statement_witness :
  parse_statement
    [tok_type "int"; tok_id "f"; tok_lparen; tok_rparen; tok_semicolon;
     tok_end] 2 0
    = Throw "Unexpected token (" 2
  /\ parse_declaration
       [tok_type "int"; tok_id "f"; tok_lparen; tok_rparen; tok_semicolon;
        tok_end] RightToLeft 0 0
     = parse_function_declaration
         [tok_type "int"; tok_id "f"; tok_lparen; tok_rparen; tok_semicolon;
          tok_end] RightToLeft 0 0.
Proof.
  apply (function_declaration_is_no_statement _ RightToLeft 0 0 "int" "f"
           "(");
    reflexivity.
Defined.

(** X7: [break] and [continue] are followed by [;] at once, or the parser
    throws at the token that follows the keyword; [return] is followed by
    an expression, so that [return ;] is thrown at the [;]. *)
Theorem jump_statement_operands
  (tokens : list Token) (fuel off : nat) (kw : Token) (tk : Token) :
  nth_error tokens off = Some kw ->
  nth_error tokens (S off) = Some tk ->
  (type kw = BREAK ->
   parse_statement tokens (S fuel) off
     = if TokenType_eqb (type tk) SEMICOLON
       then Ok BreakStatement (S (S off))
       else Throw ("Unexpected token " ++ value tk) (S off))
  /\ (type kw = CONTINUE ->
      parse_statement tokens (S fuel) off
        = if TokenType_eqb (type tk) SEMICOLON
          then Ok ContinueStatement (S (S off))
          else Throw ("Unexpected token " ++ value tk) (S off))
  /\ (type kw = RETURN ->
      type tk = SEMICOLON ->
      contains unary_operators (value tk) = false ->
      parse_statement tokens (6 + fuel) off
        = Throw ("Unexpected token " ++ value tk) (S off)).
Proof.
  intros H0 H1. destruct kw as [k kv]. destruct tk as [ty v].
  repeat split; simpl; intros Hk; subst k.
  - destruct ty; run; reflexivity.
  - destruct ty; run; reflexivity.
  - intros -> Hu. run. reflexivity.
Qed.

Lemma jump_statement_operands_witness :
  parse_statement [mkToken RETURN "return"; tok_semicolon; tok_end] 6 0
    = Throw "Unexpected token ;" 1.
Proof.
  apply (jump_statement_operands _ 0 0 (mkToken RETURN "return")
           tok_semicolon); reflexivity.
Defined.

(** X8: a type, an identifier, [=], an expression and [;] are a variable
    declaration with one declarator, whose initializer is the tree that
    [parse_expression] returns for the tokens after the [=]. *)
Theorem initialized_variable_declaration
  (tokens : list Token) (order : EvaluationOrder) (fuel off off' : nat) (t id a sc : string)
  (e : Expression) :
  nth_error tokens off = Some (mkToken TYPE t) ->
  nth_error tokens (S off) = Some (mkToken IDENTIFIER id) ->
  nth_error tokens (S (S off)) = Some (mkToken ASSIGNMENT a) ->
  parse_expression tokens fuel (S (S (S off))) = Ok e off' ->
  nth_error tokens off' = Some (mkToken SEMICOLON sc) ->
  parse_declaration tokens order (S fuel) off
    = Ok (VarDecl (mkVarDeclaration t
                     [mkInitDeclarator (NoPtrDeclarator id) (Some e)]))
         (S off').
Proof.
  intros H0 H1 H2 He Hsc. run. reflexivity.
Qed.

Lemma initialized_variable_declaration_witness :
  parse_declaration
    [tok_type "int"; tok_id "x"; tok_assign; tok_int "1"; tok_semicolon;
     tok_end] RightToLeft 8 0
    = Ok (VarDecl (mkVarDeclaration "int"
                     [mkInitDeclarator (NoPtrDeclarator "x")
                        (Some (IntLiteral "1"))])) 5.
Proof.
  apply (initialized_variable_declaration _ RightToLeft 7 0 4 "int" "x" "="
           ";");
    reflexivity.
Defined.

(** ** Function calls, again *)

(** X15: what [parse_function_call_expression] returns is no argument,
    one argument, or more between two of which the vector has two tokens
    of type [COMMA] in a row: arguments separated by one comma are never
    returned. *)
Theorem call_arguments_need_two_commas
  (tokens : list Token) (fuel off off' : nat) (args : list Expression) :
  parse_function_call_expression tokens fuel off = Ok args off' ->
  2 <= List.length args ->
  exists i c1 c2,
    nth_error tokens i = Some c1 /\ type c1 = COMMA
    /\ nth_error tokens (S i) = Some c2 /\ type c2 = COMMA.
Proof.
  intros Hrun Hlen.
  destruct fuel as [|fuel]; [discriminate Hrun|]. simpl in Hrun.
  unfold bind in Hrun.
  destruct (match_token tokens [RPAREN] off) as [closed o1| | |] eqn:Hm;
    try discriminate Hrun.
  destruct closed.
  - unfold ret in Hrun.
    destruct (extract_token tokens [RPAREN] o1); try discriminate Hrun.
    injection Hrun as <- _. simpl in Hlen. lia.
  - destruct (parse_function_call_expression_loop tokens fuel [] o1)
      as [l o2| | |] eqn:Hloop; try discriminate Hrun.
    destruct (extract_token tokens [RPAREN] o2); try discriminate Hrun.
    injection Hrun as <- _.
    destruct fuel as [|fuel]; [discriminate Hloop|]. simpl in Hloop.
    unfold bind in Hloop.
    destruct (parse_expression tokens fuel o1) as [e o3| | |];
      try discriminate Hloop.
    destruct (nth_error tokens o3) as [c1|] eqn:Hc1;
      [|rewrite (match_token_none _ _ _ _ Hc1) in Hloop; discriminate Hloop].
    rewrite (match_token_at _ _ _ _ Hc1) in Hloop.
    destruct (mentions (type c1) [COMMA]) eqn:Ht1.
    + destruct (nth_error tokens (S o3)) as [c2|] eqn:Hc2.
      * rewrite (extract_token_at _ _ _ _ Hc2) in Hloop.
        destruct (mentions (type c2) [COMMA]) eqn:Ht2;
          [|discriminate Hloop].
        exists o3, c1, c2. unfold mentions in Ht1, Ht2. simpl in Ht1, Ht2.
        rewrite orb_false_r in Ht1, Ht2.
        apply TokenType_eqb_eq in Ht1, Ht2. auto.
      * exfalso. revert Hloop. unfold extract_token, bind.
        destruct (check_token tokens [COMMA] (S o3)) as [b o4| | |] eqn:Hck;
          try discriminate.
        revert Hck.
        change (check_token tokens [COMMA])
          with (bind (current tokens)
                  (fun tk => if TokenType_eqb (type tk) COMMA then ret true
                             else check_token tokens [])).
        unfold current, get_offset, token_at, bind. cbv beta iota.
        rewrite Hc2. discriminate.
    + unfold ret in Hloop. injection Hloop as <- _.
      simpl in Hlen. lia.
Qed.

Lemma call_arguments_need_two_commas_witness :
  exists i c1 c2,
    nth_error call_double_comma_tokens i = Some c1 /\ type c1 = COMMA
    /\ nth_error call_double_comma_tokens (S i) = Some c2
    /\ type c2 = COMMA.
Proof.
  apply (call_arguments_need_two_commas call_double_comma_tokens 20 2 7
           [IdentifierExpression "a"; IdentifierExpression "b"]).
  - vm_compute. reflexivity.
  - simpl. lia.
Defined.

(** ** Chains *)

(** X10: any number of [++] and [--] tokens after a primary expression are
    applied one after the other, the first one innermost; the chain ends
    at the first token that starts no postfix. *)
Theorem postfix_operators_chain (tokens : list Token) (fuel : nat) :
  forall (ops : list bool) (off : nat) (base : Expression) (tk : Token),
  (forall i inc, nth_error ops i = Some inc ->
     exists v, nth_error tokens (off + i)
               = Some (mkToken (postfix_type inc) v)) ->
  nth_error tokens (off + List.length ops) = Some tk ->
  mentions (type tk) [INCREMENT; DECREMENT; LPAREN; LBRACKET] = false ->
  parse_postfix_expression_loop tokens (S (List.length ops + fuel)) base off
    = Ok (fold_left apply_postfix ops base) (off + List.length ops).
Proof.
  induction ops as [|inc ops IH]; intros off base tk Hops Htk Hty.
  - simpl List.length in *. rewrite Nat.add_0_r in *.
    destruct tk as [ty v]. destruct ty; try discriminate Hty; run;
      reflexivity.
  - destruct (Hops 0 inc eq_refl) as [v Hv]. rewrite Nat.add_0_r in Hv.
    simpl List.length in *.
    replace (off + S (List.length ops)) with (S off + List.length ops)
      in * by lia.
    assert (Hrest :
      parse_postfix_expression_loop tokens (S (List.length ops + fuel))
        (apply_postfix base inc) (S off)
      = Ok (fold_left apply_postfix ops (apply_postfix base inc))
           (S off + List.length ops)).
    { apply IH with tk; auto. intros i inc' Hi.
      destruct (Hops (S i) inc' Hi) as [v' Hv'].
      exists v'. rewrite <- Hv'. f_equal. lia. }
    change (S (S (List.length ops) + fuel))
      with (S (S (List.length ops + fuel))).
    remember (S (List.length ops + fuel)) as f eqn:Hf. clear IH Hops Hf.
    destruct inc; simpl in Hv; run; exact Hrest.
Qed.

Lemma postfix_operators_chain_witness :
  parse_postfix_expression_loop
    [tok_id "a"; mkToken INCREMENT "++"; mkToken DECREMENT "--";
     tok_semicolon; tok_end] 3 (IdentifierExpression "a") 1
    = Ok (PostfixDecrementExpression
            (PostfixIncrementExpression (IdentifierExpression "a"))) 3.
Proof.
  apply (postfix_operators_chain _ 0 [true; false] 1
           (IdentifierExpression "a") tok_semicolon); try reflexivity.
  intros [|[|[|i]]] inc Hi; try discriminate Hi;
    injection Hi as <-; eexists; reflexivity.
Defined.

(** X14: any number of tokens whose text is a unary operator, whatever
    their type, are prefix operators of the unary expression that follows
    them, the first one outermost. *)
Theorem prefix_operators_nest (tokens : list Token) (fuel : nat) :
  forall (ops : list string) (off off' : nat) (e : Expression),
  (forall i op, nth_error ops i = Some op ->
     contains unary_operators op = true
     /\ exists ty, nth_error tokens (off + i) = Some (mkToken ty op)) ->
  parse_unary_expression tokens fuel (off + List.length ops) = Ok e off' ->
  parse_unary_expression tokens (List.length ops + fuel) off
    = Ok (fold_right PrefixExpression e ops) off'.
Proof.
  induction ops as [|op ops IH]; intros off off' e Hops He.
  - simpl in *. rewrite Nat.add_0_r in He. exact He.
  - destruct (Hops 0 op eq_refl) as [Hu [ty Hty]].
    rewrite Nat.add_0_r in Hty. simpl List.length in *.
    replace (off + S (List.length ops)) with (S off + List.length ops)
      in * by lia.
    assert (Hrest :
      parse_unary_expression tokens (List.length ops + fuel) (S off)
      = Ok (fold_right PrefixExpression e ops) off').
    { apply IH; auto. intros i op' Hi.
      destruct (Hops (S i) op' Hi) as [Hu' [ty' Hty']].
      split; [exact Hu'|]. exists ty'. rewrite <- Hty'. f_equal. lia. }
    change (S (List.length ops) + fuel) with (S (List.length ops + fuel)).
    remember (List.length ops + fuel) as f eqn:Hf. clear IH Hops Hf.
    run. reflexivity.
Qed.

Lemma prefix_operators_nest_witness :
  parse_unary_expression
    [mkToken (OTHER "MINUS") "-"; mkToken (OTHER "NOT") "!"; tok_id "a";
     tok_semicolon; tok_end] 5 0
    = Ok (PrefixExpression "-"
            (PrefixExpression "!" (IdentifierExpression "a"))) 3.
Proof.
  apply (prefix_operators_nest _ 3 ["-"; "!"] 0 3
           (IdentifierExpression "a")); [|reflexivity].
  intros [|[|[|i]]] op Hi; try discriminate Hi;
    injection Hi as <-; (split; [reflexivity | eexists; reflexivity]).
Defined.

Lemma parse_var_declaration_loop_declarators (tokens : list Token)
  (fuel : nat) :
  forall (ids : list string) (id : string) (off : nat)
         (acc : list InitDeclarator),
  declarators_at tokens off id ids ->
  parse_var_declaration_loop tokens (S (List.length ids + fuel)) acc off
    = Ok (acc ++ map plain_declarator (id :: ids))
         (2 * S (List.length ids) + off).
Proof.
  induction ids as [|id' ids IH]; intros id off acc [Hid Hrest].
  - destruct Hrest as [v Hv]. run. reflexivity.
  - destruct Hrest as [[v Hv] Hrest].
    specialize (IH id' (S (S off)) (acc ++ [plain_declarator id]) Hrest).
    simpl List.length.
    replace (2 * S (S (List.length ids)) + off)
      with (2 * S (List.length ids) + S (S off)) by lia.
    rewrite <- app_assoc in IH. simpl app in IH.
    change (S (S (List.length ids) + fuel))
      with (S (S (List.length ids + fuel))).
    remember (S (List.length ids + fuel)) as f eqn:Hf. clear Hf.
    run. exact IH.
Qed.

(** X13: a variable declaration with any number of declarators separated
    by single commas returns them all, in order. *)
Theorem variable_declarators_in_order
  (tokens : list Token) (order : EvaluationOrder) (fuel off : nat) (t id : string)
  (ids : list string) :
  nth_error tokens off = Some (mkToken TYPE t) ->
  declarators_at tokens (S off) id ids ->
  parse_declaration tokens order (S (List.length ids + fuel)) off
    = Ok (VarDecl (mkVarDeclaration t (map plain_declarator (id :: ids))))
         (2 * S (List.length ids) + S off).
Proof.
  intros Ht Hd.
  pose proof (parse_var_declaration_loop_declarators tokens fuel ids id
                (S off) [] Hd) as Hloop.
  assert (Hid : nth_error tokens (S off) = Some (mkToken IDENTIFIER id))
    by (destruct ids; apply Hd).
  assert (Hnext : exists tk, nth_error tokens (S (S off)) = Some tk
                             /\ mentions (type tk) [LPAREN] = false).
  { destruct ids as [|id' ids]; simpl in Hd.
    - destruct Hd as [_ [v Hv]]. eexists. split; [exact Hv | reflexivity].
    - destruct Hd as [_ [[v Hv] _]]. eexists.
      split; [exact Hv | reflexivity]. }
  clear Hd.
  destruct Hnext as (tk & Htk & Hlp).
  unfold mentions in Hlp. simpl in Hlp. rewrite orb_false_r in Hlp.
  remember (S (List.length ids + fuel)) as f eqn:Hf.
  unfold parse_declaration, parse_var_declaration, match_pattern, bind,
    get_offset, ret.
  repeat (run_step; simpl).
  reflexivity.
Qed.

Lemma variable_declarators_in_order_witness :
  parse_declaration
    [tok_type "int"; tok_id "a"; tok_comma; tok_id "b"; tok_comma;
     tok_id "c"; tok_semicolon; tok_end] RightToLeft 3 0
    = Ok (VarDecl (mkVarDeclaration "int"
                     [plain_declarator "a"; plain_declarator "b";
                      plain_declarator "c"])) 7.
Proof.
  apply (variable_declarators_in_order _ RightToLeft 0 0 "int" "a"
           ["b"; "c"]).
  - reflexivity.
  - simpl. repeat split; eexists; reflexivity.
Defined.

(** ** Two operators *)

Section Climbing.

Variable tokens : list Token.

Lemma lookup_in (m : list (string * Z)) (k : string) (v : Z) :
  lookup m k = Some v -> In v (map snd m).
Proof.
  induction m as [|[k' v'] m IH]; [discriminate|].
  change (lookup ((k', v') :: m) k)
    with (if String.eqb k' k then Some v' else lookup m k).
  destruct (String.eqb k' k); intros H.
  - injection H as <-. left. reflexivity.
  - right. apply IH, H.
Qed.

Lemma precedence_nonnegative (op : string) (p : Z) :
  lookup operator_precedences op = Some p -> (0 <=? p)%Z = true.
Proof.
  intros H. apply lookup_in in H. simpl in H.
  repeat (destruct H as [<-|H]; [reflexivity|]). contradiction.
Qed.

Lemma parse_unary_expression_more_fuel fuel fuel' off e off' :
  parse_unary_expression tokens fuel off = Ok e off' ->
  fuel <= fuel' ->
  parse_unary_expression tokens fuel' off = Ok e off'.
Proof.
  intros H Hle.
  destruct (expressions_monotone_all tokens fuel fuel' Hle)
    as (_ & _ & _ & Hun & _).
  destruct (Hun off) as [Hoof|Heq]; congruence.
Qed.

Lemma parse_binary_expression_operand fuel p off a o1 :
  parse_unary_expression tokens fuel off = Ok a o1 ->
  parse_binary_expression tokens (S fuel) p off
    = parse_binary_expression_loop tokens fuel p a o1.
Proof. intros H. simpl. unfold bind. rewrite H. reflexivity. Qed.

Lemma parse_binary_expression_loop_stop fuel p lhs off tk :
  nth_error tokens off = Some tk ->
  lookup operator_precedences (value tk) = None ->
  parse_binary_expression_loop tokens (S fuel) p lhs off = Ok lhs off.
Proof.
  intros H Hl. simpl. unfold bind. rewrite (current_at _ _ _ H).
  cbv zeta. rewrite Hl. reflexivity.
Qed.

Lemma parse_binary_expression_loop_low fuel p q lhs off tk :
  nth_error tokens off = Some tk ->
  lookup operator_precedences (value tk) = Some q ->
  (p <=? q)%Z = false ->
  parse_binary_expression_loop tokens (S fuel) p lhs off = Ok lhs off.
Proof.
  intros H Hl Hq. simpl. unfold bind. rewrite (current_at _ _ _ H).
  cbv zeta. rewrite Hl, Hq. reflexivity.
Qed.

Lemma parse_binary_expression_loop_take fuel p q lhs off tk :
  nth_error tokens off = Some tk ->
  lookup operator_precedences (value tk) = Some q ->
  (p <=? q)%Z = true ->
  parse_binary_expression_loop tokens (S fuel) p lhs off
    = bind (parse_binary_expression tokens fuel q)
        (fun rhs => parse_binary_expression_loop tokens fuel p
                      (BinaryOperation (value tk) lhs rhs)) (S off).
Proof.
  intros H Hl Hq. simpl. unfold bind. rewrite (current_at _ _ _ H).
  cbv zeta. rewrite Hl, Hq. reflexivity.
Qed.

End Climbing.

(** X11: for two operators of the table between three operands,
    [a op1 b op2 c], the second operator takes [b] when its precedence is
    not lower than that of the first, and the whole of [a op1 b] when it
    is lower: operators of one precedence group to the right, a lower
    one after a higher one to the left. *)
Theorem two_operators_by_precedence
  (tokens : list Token) (fa fb fc fuel off o1 o2 o3 : nat)
  (a b c : Expression) (t1 t2 t3 : Token) (p1 p2 : Z) :
  parse_unary_expression tokens fa off = Ok a o1 ->
  nth_error tokens o1 = Some t1 ->
  lookup operator_precedences (value t1) = Some p1 ->
  parse_unary_expression tokens fb (S o1) = Ok b o2 ->
  nth_error tokens o2 = Some t2 ->
  lookup operator_precedences (value t2) = Some p2 ->
  parse_unary_expression tokens fc (S o2) = Ok c o3 ->
  nth_error tokens o3 = Some t3 ->
  lookup operator_precedences (value t3) = None ->
  8 + fa + fb + fc <= fuel ->
  parse_expression tokens fuel off
    = Ok (if (p1 <=? p2)%Z
          then BinaryOperation (value t1) a
                 (BinaryOperation (value t2) b c)
          else BinaryOperation (value t2)
                 (BinaryOperation (value t1) a b) c) o3.
Proof.
  intros Ha H1 Hp1 Hb H2 Hp2 Hc H3 Hp3 Hfuel.
  do 8 (destruct fuel as [|fuel]; [lia|]).
  pose proof (precedence_nonnegative _ _ Hp1) as Hn1.
  pose proof (precedence_nonnegative _ _ Hp2) as Hn2.
  change (parse_expression tokens (S (S (S (S (S (S (S (S fuel)))))))))
    with (parse_binary_expression tokens (S (S (S (S (S (S (S fuel)))))))
            0%Z).
  rewrite (parse_binary_expression_operand tokens _ _ _ a o1)
    by (apply parse_unary_expression_more_fuel with fa; [exact Ha | lia]).
  rewrite (parse_binary_expression_loop_take tokens _ _ _ _ _ _ H1 Hp1 Hn1).
  unfold bind at 1.
  rewrite (parse_binary_expression_operand tokens _ _ _ b o2)
    by (apply parse_unary_expression_more_fuel with fb; [exact Hb | lia]).
  destruct (p1 <=? p2)%Z eqn:Hle.
  - rewrite (parse_binary_expression_loop_take tokens _ _ _ _ _ _ H2 Hp2 Hle).
    unfold bind at 1.
    rewrite (parse_binary_expression_operand tokens _ _ _ c o3)
      by (apply parse_unary_expression_more_fuel with fc; [exact Hc | lia]).
    rewrite (parse_binary_expression_loop_stop tokens _ _ _ _ _ H3 Hp3).
    rewrite (parse_binary_expression_loop_stop tokens _ _ _ _ _ H3 Hp3).
    apply (parse_binary_expression_loop_stop tokens _ _ _ _ _ H3 Hp3).
  - rewrite (parse_binary_expression_loop_low tokens _ _ _ _ _ _ H2 Hp2 Hle).
    rewrite (parse_binary_expression_loop_take tokens _ _ _ _ _ _ H2 Hp2 Hn2).
    unfold bind at 1.
    rewrite (parse_binary_expression_operand tokens _ _ _ c o3)
      by (apply parse_unary_expression_more_fuel with fc; [exact Hc | lia]).
    rewrite (parse_binary_expression_loop_stop tokens _ _ _ _ _ H3 Hp3).
    apply (parse_binary_expression_loop_stop tokens _ _ _ _ _ H3 Hp3).
Qed.

Lemma two_operators_by_precedence_witness :
  parse_expression
    [tok_int "1"; mkToken MULTIPLY "*"; tok_int "2";
     mkToken (OTHER "PLUS") "+"; tok_int "3"; tok_semicolon; tok_end] 17 0
    = Ok (BinaryOperation "+"
            (BinaryOperation "*" (IntLiteral "1") (IntLiteral "2"))
            (IntLiteral "3")) 5.
Proof.
  exact (two_operators_by_precedence
           [tok_int "1"; mkToken MULTIPLY "*"; tok_int "2";
            mkToken (OTHER "PLUS") "+"; tok_int "3"; tok_semicolon; tok_end]
           3 3 3 17 0 1 3 5
           (IntLiteral "1") (IntLiteral "2") (IntLiteral "3")
           (mkToken MULTIPLY "*") (mkToken (OTHER "PLUS") "+") tok_semicolon
           6%Z 5%Z
           eq_refl eq_refl eq_refl eq_refl eq_refl eq_refl eq_refl eq_refl
           eq_refl (le_n 17)).
Defined.

(** ** The whole run *)

(** X1: [parse] terminates on every token vector: with sixteen units of
    fuel for each token and one more the run is not cut short, and with
    any larger amount its outcome is the same. *)
Theorem parse_terminates (tokens : list Token) (order : EvaluationOrder) (fuel : nat) :
  1 + 16 * List.length tokens <= fuel ->
  run_parse tokens order fuel <> OutOfFuel
  /\ run_parse tokens order fuel
     = run_parse tokens order (1 + 16 * List.length tokens).
Proof.
  intros Hfuel. split.
  - apply parse_finishes. exact Hfuel.
  - destruct (parse_monotone tokens order _ _ Hfuel 0) as [Hoof|Heq].
    + exfalso. revert Hoof. apply parse_finishes. lia.
    + symmetry. exact Heq.
Qed.

Lemma parse_terminates_witness :
  run_parse unterminated_tokens RightToLeft 100 <> OutOfFuel
  /\ run_parse unterminated_tokens RightToLeft 100
     = run_parse unterminated_tokens RightToLeft 49.
Proof.
  apply (parse_terminates unterminated_tokens RightToLeft 100). simpl. lia.
Defined.

(** X3: when [parse] returns, the last token it has consumed has type
    [END]: it does not return on a vector without such a token, and it
    does not look for declarations after the first one it meets where a
    declaration would start. *)
Theorem parse_returns_after_end
  (tokens : list Token) (order : EvaluationOrder) (fuel : nat) (tu : TranslationUnit) (off' : nat) :
  run_parse tokens order fuel = Ok tu off' ->
  exists k tk, off' = S k /\ nth_error tokens k = Some tk /\ type tk = END.
Proof.
  unfold run_parse, parse. generalize (@nil Declaration) as l.
  generalize 0 as off. revert tu off'.
  induction fuel as [|fuel IH]; intros tu off' off l Hrun;
    [discriminate Hrun|].
  simpl in Hrun. unfold bind in Hrun.
  destruct (nth_error tokens off) as [tk|] eqn:Htk.
  - rewrite (match_token_at _ _ _ _ Htk) in Hrun.
    destruct (mentions (type tk) [END]) eqn:Hend.
    + unfold ret in Hrun. injection Hrun as _ <-.
      exists off, tk. repeat split; [exact Htk|].
      unfold mentions in Hend. simpl in Hend. rewrite orb_false_r in Hend.
      apply TokenType_eqb_eq. exact Hend.
    + destruct (parse_declaration tokens order fuel off) as [d o1| | |];
        try discriminate Hrun.
      apply (IH _ _ _ _ Hrun).
  - rewrite (match_token_none _ _ _ _ Htk) in Hrun. discriminate Hrun.
Qed.

Lemma parse_returns_after_end_witness :
  exists k tk, 6 = S k
    /\ nth_error
         [tok_type "int"; tok_id "f"; tok_lparen; tok_rparen; tok_semicolon;
          tok_end] k = Some tk
    /\ type tk = END.
Proof.
  apply (parse_returns_after_end
           [tok_type "int"; tok_id "f"; tok_lparen; tok_rparen;
            tok_semicolon; tok_end] RightToLeft 20
           (mkTranslationUnit
              [FuncDeclaration "int" (NoPtrDeclarator "f") [] None])).
  vm_compute. reflexivity.
Defined.

Lemma more_fuel_same_outcome {A} (m m' : M A) (off : nat) (r : Result A) :
  refines m m' -> m off = r -> r <> OutOfFuel -> m' off = r.
Proof.
  intros Href Hr Hne. destruct (Href off) as [Hoof|Heq]; congruence.
Qed.

Lemma within_vector_kept (tokens : list Token) (off : nat) (tk : Token) :
  nth_error tokens off = Some tk -> S off <= List.length tokens.
Proof. intros H. apply nth_error_Some. congruence. Qed.

(** X2: an expression, a statement and a declaration each take at least
    one token, and none takes a token that the vector does not have: a
    call that returns leaves the cursor further on, at most at the end of
    the vector. *)
Theorem returning_calls_advance
  (tokens : list Token) (order : EvaluationOrder) (fuel off off' : nat) :
  (forall e, parse_expression tokens fuel off = Ok e off' ->
     off < off' <= List.length tokens)
  /\ (forall s, parse_statement tokens fuel off = Ok s off' ->
      off < off' <= List.length tokens)
  /\ (forall d, parse_declaration tokens order fuel off = Ok d off' ->
      off < off' <= List.length tokens).
Proof.
  set (big := fuel + (8 + 16 * List.length tokens)).
  assert (Hbig : fuel <= big) by (unfold big; lia).
  split; [|split]; intros x H.
  - pose proof (parse_expression_finishes tokens big off
                  ltac:(unfold big; lia)) as Hfin.
    unfold wp in Hfin.
    rewrite (more_fuel_same_outcome _ _ off _
               (parse_expression_monotone tokens fuel big Hbig) H)
      in Hfin by discriminate.
    destruct Hfin as [Hadv Hlt].
    assert (Hk : wp (fun _ _ => True) True True
                   (parse_expression tokens fuel)
                   (fun _ o => o <= List.length tokens) off).
    { apply (keeps_parse_expression tokens (fun _ _ => True) True True
               (fun o => o <= List.length tokens));
        try exact I; try (intros; exact I);
        try (intros o tk _ Hn _; exact (within_vector_kept _ _ _ Hn));
        cbv beta; lia. }
    unfold wp in Hk. rewrite H in Hk. split; [exact Hadv | exact Hk].
  - pose proof (proj1 (statements_finish_all tokens big) off
                  ltac:(unfold big; lia)) as Hfin.
    unfold wp in Hfin.
    rewrite (more_fuel_same_outcome _ _ off _
               (parse_statement_monotone tokens fuel big Hbig) H)
      in Hfin by discriminate.
    destruct Hfin as [Hadv Hlt].
    assert (Hk : wp (fun _ _ => True) True True
                   (parse_statement tokens fuel)
                   (fun _ o => o <= List.length tokens) off).
    { apply (proj1 (keeps_statements_all tokens (fun _ _ => True) True True
                      (fun o => o <= List.length tokens) I
                      ltac:(intros o tk _ Hn _;
                            exact (within_vector_kept _ _ _ Hn))
                      ltac:(intros o tk _ Hn _;
                            exact (within_vector_kept _ _ _ Hn))
                      ltac:(intros; exact I) ltac:(intros; exact I) fuel)).
      cbv beta. lia. }
    unfold wp in Hk. rewrite H in Hk. split; [exact Hadv | exact Hk].
  - pose proof (parse_declaration_finishes tokens order big off
                  ltac:(unfold big; lia)) as Hfin.
    unfold wp in Hfin.
    rewrite (more_fuel_same_outcome _ _ off _
               (parse_declaration_monotone tokens order fuel big Hbig) H)
      in Hfin by discriminate.
    destruct Hfin as [Hadv Hlt].
    assert (Hk : wp (fun _ _ => True) True True
                   (parse_declaration tokens order fuel)
                   (fun _ o => o <= List.length tokens) off).
    { apply (keeps_parse_declaration tokens order (fun _ _ => True) True
               True
               (fun o => o <= List.length tokens));
        try exact I; try (intros; exact I);
        try (intros o tk _ Hn _; exact (within_vector_kept _ _ _ Hn));
        cbv beta; lia. }
    unfold wp in Hk. rewrite H in Hk. split; [exact Hadv | exact Hk].
Qed.

Lemma returning_calls_advance_witness :
  0 < 5 <= List.length sum_product_tokens.
Proof.
  apply (proj1 (returning_calls_advance sum_product_tokens RightToLeft 20 0
                  5)
           (BinaryOperation "+" (IntLiteral "1")
              (BinaryOperation "*" (IntLiteral "2") (IntLiteral "3")))).
  vm_compute. reflexivity.
Defined.

(** ** Parameter lists, again *)

Lemma parse_function_declaration_loop_parameters (tokens : list Token)
  (order : EvaluationOrder) (fuel : nat) :
  forall (ps : list (string * string)) (p : string * string) (off : nat)
         (acc : list ParameterDeclaration),
  parameters_at tokens order off p ps ->
  parse_function_declaration_loop tokens order
    (S (List.length ps + fuel)) acc off
    = Ok (acc ++ map plain_parameter (p :: ps))
         (3 * S (List.length ps) + off).
Proof.
  induction ps as [|p' ps IH]; intros p off acc (Hp & Hrest).
  - destruct Hrest as (ty & Hty & Hclose).
    destruct order; destruct Hp as [H0 H1];
      simpl; unfold parse_parameter_declaration, parse_init_declarator,
        parse_declarator, match_pattern, bind, get_offset, incr_offset, ret;
      repeat (run_step; simpl);
      try (unfold mentions; simpl; rewrite Hty; simpl);
      repeat (run_step; simpl);
      change (")" =? ",") with false; cbv iota;
      repeat (run_step; simpl);
      change (")" =? ")") with true; reflexivity.
  - destruct Hrest as ((ty & Hty & Hsep) & Hrest).
    specialize (IH p' (S (S (S off))) (acc ++ [plain_parameter p]) Hrest).
    simpl List.length.
    replace (3 * S (S (List.length ps)) + off)
      with (3 * S (List.length ps) + S (S (S off))) by lia.
    rewrite <- app_assoc in IH. simpl app in IH.
    change (S (S (List.length ps) + fuel))
      with (S (S (List.length ps + fuel))).
    remember (S (List.length ps + fuel)) as f eqn:Hf. clear Hf.
    destruct order; destruct Hp as [H0 H1];
      simpl; unfold parse_parameter_declaration, parse_init_declarator,
        parse_declarator, match_pattern, bind, get_offset, incr_offset, ret;
      repeat (run_step; simpl);
      try (unfold mentions; simpl; rewrite Hty; simpl);
      repeat (run_step; simpl);
      change ("," =? ",") with true; exact IH.
Qed.

(** X16: a function prototype with any number of parameters, each a type
    and a name in the order in which [parse_parameter_declaration] reads
    them, separated by tokens whose text is [","] and closed by a token
    whose text is [")"], returns its parameters in order; this holds in
    either order of evaluation. *)
Theorem function_parameters_in_order
  (tokens : list Token) (order : EvaluationOrder) (fuel off : nat)
  (t f lp sc : string) (p : string * string) (ps : list (string * string)) :
  nth_error tokens off = Some (mkToken TYPE t) ->
  nth_error tokens (S off) = Some (mkToken IDENTIFIER f) ->
  nth_error tokens (S (S off)) = Some (mkToken LPAREN lp) ->
  parameters_at tokens order (S (S (S off))) p ps ->
  nth_error tokens (3 * S (List.length ps) + S (S (S off)))
    = Some (mkToken SEMICOLON sc) ->
  parse_declaration tokens order (S (List.length ps + fuel)) off
    = Ok (FuncDeclaration t (NoPtrDeclarator f)
            (map plain_parameter (p :: ps)) None)
         (S (3 * S (List.length ps) + S (S (S off)))).
Proof.
  intros Ht Hf Hlp Hps Hsc.
  pose proof (parse_function_declaration_loop_parameters tokens order fuel
                ps p (S (S (S off))) [] Hps) as Hloop.
  assert (Hfirst : exists tk, nth_error tokens (S (S (S off))) = Some tk
                              /\ mentions (type tk) [RPAREN] = false).
  { destruct order, ps; destruct Hps as [[H0 _] _];
      eexists; (split; [exact H0 | reflexivity]). }
  destruct Hfirst as (tk & Hfirst & Hnot).
  unfold mentions in Hnot. simpl in Hnot.
  clear Hps. simpl app in Hloop.
  remember (S (List.length ps + fuel)) as g eqn:Hg. clear Hg.
  remember (3 * S (List.length ps) + S (S (S off))) as o eqn:Ho. clear Ho.
  unfold parse_declaration, parse_function_declaration, parse_declarator,
    match_pattern, bind, get_offset, ret.
  repeat (run_step; simpl).
  reflexivity.
Qed.

Lemma function_parameters_in_order_witness :
  parse_declaration
    (two_parameter_tokens RightToLeft (mkToken SEMICOLON ",") tok_rparen)
    RightToLeft 2 0
    = Ok (FuncDeclaration "int" (NoPtrDeclarator "f")
            [plain_parameter ("int", "a"); plain_parameter ("int", "b")]
            None) 10.
Proof.
  apply (function_parameters_in_order _ RightToLeft 0 0 "int" "f" "(" ";"
           ("int", "a") [("int", "b")]); try reflexivity.
  simpl. repeat split; try reflexivity.
  - exists SEMICOLON. split; reflexivity.
  - exists RPAREN. split; reflexivity.
Defined.

(** ** Conditionals *)

Section Conditionals.

Variable tokens : list Token.

Lemma parse_expression_more_fuel fuel fuel' off e off' :
  parse_expression tokens fuel off = Ok e off' ->
  fuel <= fuel' ->
  parse_expression tokens fuel' off = Ok e off'.
Proof.
  intros H Hle.
  apply (more_fuel_same_outcome _ _ off _
           (parse_expression_monotone tokens fuel fuel' Hle) H).
  discriminate.
Qed.

Lemma parse_statement_more_fuel fuel fuel' off s off' :
  parse_statement tokens fuel off = Ok s off' ->
  fuel <= fuel' ->
  parse_statement tokens fuel' off = Ok s off'.
Proof.
  intros H Hle.
  apply (more_fuel_same_outcome _ _ off _
           (parse_statement_monotone tokens fuel fuel' Hle) H).
  discriminate.
Qed.

Lemma parse_conditional_statement_loop_stop fuel l off tk :
  1 <= fuel ->
  nth_error tokens off = Some tk ->
  mentions (type tk) [ELIF] = false ->
  parse_conditional_statement_loop tokens fuel l off = Ok l off.
Proof.
  intros Hf H Hty. destruct fuel as [|fuel]; [lia|].
  unfold mentions in Hty. simpl in Hty. run. reflexivity.
Qed.

(** [( c ) s] followed by a token that starts neither an [elif] nor an
    [else]: a conditional with the one branch. *)
Lemma parse_conditional_statement_alone fuel off o1 o2 lp rp c s tk :
  1 <= fuel ->
  nth_error tokens off = Some (mkToken LPAREN lp) ->
  parse_expression tokens fuel (S off) = Ok c o1 ->
  nth_error tokens o1 = Some (mkToken RPAREN rp) ->
  parse_statement tokens fuel (S o1) = Ok s o2 ->
  nth_error tokens o2 = Some tk ->
  mentions (type tk) [ELIF; ELSE] = false ->
  parse_conditional_statement tokens (S fuel) off
    = Ok (ConditionalStatement (c, s) [] None) o2.
Proof.
  intros Hf Hlp Hc Hrp Hs Htk Hty.
  assert (Helif : mentions (type tk) [ELIF] = false)
    by (destruct tk as [ty v]; destruct ty; try discriminate Hty;
        reflexivity).
  assert (Helse : mentions (type tk) [ELSE] = false)
    by (destruct tk as [ty v]; destruct ty; try discriminate Hty;
        reflexivity).
  pose proof (parse_conditional_statement_loop_stop fuel [] o2 tk Hf Htk
                Helif) as Hloop.
  unfold mentions in Helse. simpl in Helse. run. reflexivity.
Qed.

(** [( c ) s else s']: a conditional with its [else] branch. *)
Lemma parse_conditional_statement_else fuel off o1 o2 o3 lp rp el c s s' :
  1 <= fuel ->
  nth_error tokens off = Some (mkToken LPAREN lp) ->
  parse_expression tokens fuel (S off) = Ok c o1 ->
  nth_error tokens o1 = Some (mkToken RPAREN rp) ->
  parse_statement tokens fuel (S o1) = Ok s o2 ->
  nth_error tokens o2 = Some (mkToken ELSE el) ->
  parse_statement tokens fuel (S o2) = Ok s' o3 ->
  parse_conditional_statement tokens (S fuel) off
    = Ok (ConditionalStatement (c, s) [] (Some s')) o3.
Proof.
  intros Hf Hlp Hc Hrp Hs Hel Hs'.
  pose proof (parse_conditional_statement_loop_stop fuel [] o2 _ Hf Hel
                eq_refl) as Hloop.
  run. reflexivity.
Qed.

Lemma parse_statement_if fuel off kw :
  nth_error tokens off = Some (mkToken IF kw) ->
  parse_statement tokens (S fuel) off
    = parse_conditional_statement tokens fuel (S off).
Proof. intros H. run. reflexivity. Qed.

End Conditionals.

(** X17: an [else] goes with the nearest [if]: in
    [if ( c1 ) if ( c2 ) s1 else s2] the inner conditional takes the
    [else] branch and the outer one has none. *)
Theorem else_goes_with_nearest_if
  (tokens : list Token) (fc1 fc2 fs1 fs2 fuel off o1 o2 o3 o4 : nat)
  (k1 l1 r1 k2 l2 r2 el : string) (c1 c2 : Expression) (s1 s2 : Statement)
  (tk : Token) :
  nth_error tokens off = Some (mkToken IF k1) ->
  nth_error tokens (S off) = Some (mkToken LPAREN l1) ->
  parse_expression tokens fc1 (S (S off)) = Ok c1 o1 ->
  nth_error tokens o1 = Some (mkToken RPAREN r1) ->
  nth_error tokens (S o1) = Some (mkToken IF k2) ->
  nth_error tokens (S (S o1)) = Some (mkToken LPAREN l2) ->
  parse_expression tokens fc2 (S (S (S o1))) = Ok c2 o2 ->
  nth_error tokens o2 = Some (mkToken RPAREN r2) ->
  parse_statement tokens fs1 (S o2) = Ok s1 o3 ->
  nth_error tokens o3 = Some (mkToken ELSE el) ->
  parse_statement tokens fs2 (S o3) = Ok s2 o4 ->
  nth_error tokens o4 = Some tk ->
  mentions (type tk) [ELIF; ELSE] = false ->
  5 + fc1 + fc2 + fs1 + fs2 <= fuel ->
  parse_statement tokens fuel off
    = Ok (ConditionalStatement
            (c1, ConditionalStatement (c2, s1) [] (Some s2)) [] None) o4.
Proof.
  intros Hk1 Hl1 Hc1 Hr1 Hk2 Hl2 Hc2 Hr2 Hs1 Hel Hs2 Htk Hty Hfuel.
  do 4 (destruct fuel as [|fuel]; [lia|]).
  assert (Hinner :
    parse_statement tokens (S (S fuel)) (S o1)
    = Ok (ConditionalStatement (c2, s1) [] (Some s2)) o4).
  { rewrite (parse_statement_if tokens _ _ _ Hk2).
    apply (parse_conditional_statement_else tokens fuel (S (S o1)) o2 o3 o4
             l2 r2 el); auto; try lia.
    - apply parse_expression_more_fuel with fc2; [exact Hc2 | lia].
    - apply parse_statement_more_fuel with fs1; [exact Hs1 | lia].
    - apply parse_statement_more_fuel with fs2; [exact Hs2 | lia]. }
  rewrite (parse_statement_if tokens _ _ _ Hk1).
  apply (parse_conditional_statement_alone tokens (S (S fuel)) (S off) o1 o4
           l1 r1 _ _ tk); auto; try lia.
  apply parse_expression_more_fuel with fc1; [exact Hc1 | lia].
Qed.

Lemma else_goes_with_nearest_if_witness :
  parse_statement
    [mkToken IF "if"; tok_lparen; tok_id "a"; tok_rparen;
     mkToken IF "if"; tok_lparen; tok_id "b"; tok_rparen;
     mkToken BREAK "break"; tok_semicolon;
     mkToken ELSE "else"; mkToken CONTINUE "continue"; tok_semicolon;
     tok_end] 21 0
    = Ok (ConditionalStatement
            (IdentifierExpression "a",
             ConditionalStatement (IdentifierExpression "b", BreakStatement)
               [] (Some ContinueStatement)) [] None) 13.
Proof.
  apply (else_goes_with_nearest_if _ 6 6 2 2 21 0 3 7 10 13
           "if" "(" ")" "if" "(" ")" "else" _ _ _ _ tok_end);
    reflexivity.
Defined.
